(** * Key-binding and mouse-binding directive parsing of kitty/options_types.py

    A shallow embedding of the binding compiler of [kitty/options_types.py]
    ([parse_mods], [parse_shortcut], [parse_key_action],
    [resolve_kitten_aliases], [resolve], [parse_map], [parse_mouse_map]) and
    the properties of it that the specification states.

    Conventions of the embedding.
    - A Python [str] is a Rocq [string] holding its UTF-8 bytes.  The case
      maps and the white-space class are Python's on ASCII text; a non-ASCII
      byte is neither cased nor white space.  [ord] decodes one UTF-8
      sequence, so a one-character string is one code point as in Python.
      [int] with a base reads ASCII digits, between the white space that
      C's [isspace] knows.  [blank] alone reads the white space beyond
      ASCII.
    - A Python [int] is a [Z]; [|] is [Z.lor].
    - A [dict] that is only looked up is a [gmap]; the kitten-alias table,
      which is iterated in insertion order, is an association list.
    - A [frozenset] is a [gset]; iterating it is [elements], whose order is
      as unspecified as Python's.
    - [log_error] appends to a log; an exception is an explicit outcome. *)

From Stdlib Require Import ZArith Ascii String Lia.
From stdpp Require Import base option list strings gmap sets.

Local Open Scope Z_scope.

(** ** Python string primitives *)

Module Py.

Definition code (c : ascii) : Z := Z.of_N (N_of_ascii c).

(** [str.isspace] on ASCII: TAB..CR, FS..US and the space. *)
Definition isspace (c : ascii) : bool :=
  let n := code c in
  ((9 <=? n) && (n <=? 13)) || ((28 <=? n) && (n <=? 32)).

Definition upper_char (c : ascii) : ascii :=
  let n := code c in
  if (97 <=? n) && (n <=? 122) then ascii_of_N (Z.to_N (n - 32)) else c.

Definition lower_char (c : ascii) : ascii :=
  let n := code c in
  if (65 <=? n) && (n <=? 90) then ascii_of_N (Z.to_N (n + 32)) else c.

Fixpoint map_chars (f : ascii → ascii) (s : string) : string :=
  match s with
  | EmptyString => EmptyString
  | String c s' => String (f c) (map_chars f s')
  end.

(** [s.upper()] and [s.lower()]. *)
Definition upper : string → string := map_chars upper_char.
Definition lower : string → string := map_chars lower_char.

(** [len(s)], counted in bytes. *)
Definition len (s : string) : Z := Z.of_nat (String.length s).

(** [s.lstrip(chars)], [s.rstrip(chars)], [s.strip(chars)] for a predicate
    on characters. *)
Fixpoint lstrip_by (p : ascii → bool) (s : string) : string :=
  match s with
  | EmptyString => EmptyString
  | String c s' => if p c then lstrip_by p s' else s
  end.

Fixpoint rstrip_by (p : ascii → bool) (s : string) : string :=
  match s with
  | EmptyString => EmptyString
  | String c s' =>
      match rstrip_by p s' with
      | EmptyString => if p c then EmptyString else String c EmptyString
      | r => String c r
      end
  end.

Definition strip_by (p : ascii → bool) (s : string) : string :=
  rstrip_by p (lstrip_by p s).

Definition lstrip : string → string := lstrip_by isspace.
Definition rstrip : string → string := rstrip_by isspace.
Definition strip : string → string := strip_by isspace.

(** [s.strip(sep)] for a one-character [sep]. *)
Definition strip_char (sep : ascii) : string → string :=
  strip_by (λ c, bool_decide (c = sep)).

(** [sep in s] for a one-character [sep]. *)
Fixpoint contains (sep : ascii) (s : string) : bool :=
  match s with
  | EmptyString => false
  | String c s' => bool_decide (c = sep) || contains sep s'
  end.

(** [s.split(sep)] for a one-character [sep]: never the empty list. *)
Fixpoint split (sep : ascii) (s : string) : list string :=
  match s with
  | EmptyString => [EmptyString]
  | String c s' =>
      if bool_decide (c = sep) then EmptyString :: split sep s'
      else match split sep s' with
           | h :: t => String c h :: t
           | [] => [String c EmptyString]
           end
  end.

(** The maximal prefix without white space, and what follows it. *)
Fixpoint take_word (s : string) : string * string :=
  match s with
  | EmptyString => (EmptyString, EmptyString)
  | String c s' =>
      if isspace c then (EmptyString, s)
      else let '(w, r) := take_word s' in (String c w, r)
  end.

(** [s.split(maxsplit=n)]: runs of white space separate the fields, leading
    white space is skipped, and once [n] fields are cut the remainder is
    kept whole, trailing white space included, unless it is all white
    space. *)
Fixpoint split_ws (maxsplit : nat) (s : string) : list string :=
  match lstrip s with
  | EmptyString => []
  | s1 =>
      match maxsplit with
      | O => [s1]
      | S k => let '(w, r) := take_word s1 in w :: split_ws k r
      end
  end.

(** [s.startswith(p)] and [s.endswith(c)] for a one-character [c]. *)
Definition startswith (p s : string) : bool := String.prefix p s.

Fixpoint endswith (c : ascii) (s : string) : bool :=
  match s with
  | EmptyString => false
  | String a EmptyString => bool_decide (a = c)
  | String _ s' => endswith c s'
  end.

(** [s[:-1]] when the last character is ASCII. *)
Fixpoint drop_last (s : string) : string :=
  match s with
  | EmptyString => EmptyString
  | String _ EmptyString => EmptyString
  | String a s' => String a (drop_last s')
  end.

Definition is_cont (c : ascii) : bool :=
  let n := code c in (128 <=? n) && (n <=? 191).

(** [s[1:]]: the first character is a whole UTF-8 sequence. *)
Definition drop_first (s : string) : string :=
  match s with
  | EmptyString => EmptyString
  | String _ s' => lstrip_by is_cont s'
  end.

Definition bytes (s : string) : list Z :=
  code <$> list_ascii_of_string s.

Definition cont (b : Z) : bool := (128 <=? b) && (b <=? 191).

(** [ord(s)]: the code point of a one-character string; [None] stands for
    the [TypeError] on any other length. *)
Definition ord (s : string) : option Z :=
  match bytes s with
  | [a] => if a <? 128 then Some a else None
  | [a; b] =>
      if (194 <=? a) && (a <=? 223) && cont b
      then Some (Z.lor (Z.shiftl (Z.land a 31) 6) (Z.land b 63))
      else None
  | [a; b; c] =>
      let cp := Z.lor (Z.shiftl (Z.land a 15) 12)
                  (Z.lor (Z.shiftl (Z.land b 63) 6) (Z.land c 63)) in
      if (224 <=? a) && (a <=? 239) && cont b && cont c && (2048 <=? cp)
      then Some cp else None
  | [a; b; c; d] =>
      let cp := Z.lor (Z.shiftl (Z.land a 7) 18)
                  (Z.lor (Z.shiftl (Z.land b 63) 12)
                     (Z.lor (Z.shiftl (Z.land c 63) 6) (Z.land d 63))) in
      if (240 <=? a) && (a <=? 244) && cont b && cont c && cont d
         && (65536 <=? cp) && (cp <=? 1114111)
      then Some cp else None
  | _ => None
  end.

(** [chr(cp).isspace()] for any code point: the ASCII class of [isspace]
    and NEL, the no-break space, the Ogham space mark, the spaces of
    U+2000..U+200A, the line and paragraph separators, the narrow no-break
    space, the mathematical space and the ideographic space. *)
Definition isspace_cp (cp : Z) : bool :=
  ((9 <=? cp) && (cp <=? 13)) || ((28 <=? cp) && (cp <=? 32))
  || (cp =? 133) || (cp =? 160) || (cp =? 5760)
  || ((8192 <=? cp) && (cp <=? 8202))
  || (cp =? 8232) || (cp =? 8233) || (cp =? 8239) || (cp =? 8287) || (cp =? 12288).

(** [ch.isspace()] for a one-character string. *)
Definition isspace_char (ch : string) : bool :=
  match ord ch with
  | Some cp => isspace_cp cp
  | None => false
  end.

(** [not s.strip()]: every character of [s] is white space, by
    [isspace_cp] for any text, ASCII or not.  The characters are read off
    the UTF-8 bytes; a white-space character has one, two or three. *)
Fixpoint blank (s : string) : bool :=
  match s with
  | EmptyString => true
  | String a s1 =>
      if isspace_char (String a EmptyString) then blank s1
      else
        match s1 with
        | EmptyString => false
        | String b s2 =>
            if isspace_char (String a (String b EmptyString)) then blank s2
            else
              match s2 with
              | EmptyString => false
              | String c s3 =>
                  isspace_char (String a (String b (String c EmptyString)))
                  && blank s3
              end
        end
  end.

Definition hex_digit (c : ascii) : option Z :=
  let n := code c in
  if (48 <=? n) && (n <=? 57) then Some (n - 48)
  else if (97 <=? n) && (n <=? 102) then Some (n - 87)
  else if (65 <=? n) && (n <=? 70) then Some (n - 55)
  else None.

(** The digits of [int(s, 16)] after the sign and the prefix: hexadecimal
    digits, single underscores only between two digits.  [prev] tells
    whether the previous character was a digit, [acc] is the value read so
    far; no digit at all is an error. *)
Fixpoint hex_digits (s : string) (prev : bool) (acc : Z) : option Z :=
  match s with
  | EmptyString => if prev then Some acc else None
  | String c s' =>
      match hex_digit c with
      | Some d => hex_digits s' true (16 * acc + d)
      | None =>
          if bool_decide (c = "_"%char) && prev
          then hex_digits s' false acc
          else None
      end
  end.

(** The white space that [int] skips around an ASCII text: C's [isspace],
    TAB..CR and the space.  FS..US, which [str.strip] drops, are not in
    it. *)
Definition int_isspace (c : ascii) : bool :=
  let n := code c in
  ((9 <=? n) && (n <=? 13)) || (n =? 32).

(** [int(s, 16)] on ASCII text; [None] stands for the [ValueError].  White
    space around the number is skipped, a sign and the prefix [0x] or [0X]
    are optional, and one underscore may follow the prefix. *)
Definition int16 (s : string) : option Z :=
  let s := strip_by int_isspace s in
  let '(sign, s) :=
    match s with
    | String "+" s' => (1, s')
    | String "-" s' => (-1, s')
    | _ => (1, s)
    end in
  let body :=
    match s with
    | String "0" (String "x" s') | String "0" (String "X" s') =>
        match s' with
        | String "_" s'' => s''
        | _ => s'
        end
    | _ => s
    end in
  (λ n, sign * n) <$> hex_digits body false 0.

(** [s.split()]: every run of white space separates and no field is
    empty.  A string of [n] bytes has at most [n] fields, so [n] cuts are
    as good as no limit. *)
Definition split_all (s : string) : list string := split_ws (String.length s) s.

(** [sep.join(l)]. *)
Fixpoint join (sep : string) (l : list string) : string :=
  match l with
  | [] => EmptyString
  | x :: l' =>
      match l' with
      | [] => x
      | _ => x +:+ sep +:+ join sep l'
      end
  end.

(** [s.partition(sep)[::2]] for a one-character [sep]: what precedes the
    first [sep] and what follows it; [(s, "")] when there is none. *)
Fixpoint partition (sep : ascii) (s : string) : string * string :=
  match s with
  | EmptyString => (EmptyString, EmptyString)
  | String c s' =>
      if bool_decide (c = sep) then (EmptyString, s')
      else let '(a, b) := partition sep s' in (String c a, b)
  end.

(** [s.replace(old, new)] for one-character [old] and [new]. *)
Definition replace (old new : ascii) : string → string :=
  map_chars (λ c, if bool_decide (c = old) then new else c).

(** [s.startswith(c)] for a one-character [c]. *)
Definition startswith_char (c : ascii) (s : string) : bool :=
  match s with
  | EmptyString => false
  | String a _ => bool_decide (a = c)
  end.

Definition dec_digit (c : ascii) : option Z :=
  let n := code c in
  if (48 <=? n) && (n <=? 57) then Some (n - 48) else None.

(** The digits of [int(s)] after the sign, with the underscore rule of
    [hex_digits]. *)
Fixpoint dec_digits (s : string) (prev : bool) (acc : Z) : option Z :=
  match s with
  | EmptyString => if prev then Some acc else None
  | String c s' =>
      match dec_digit c with
      | Some d => dec_digits s' true (10 * acc + d)
      | None =>
          if bool_decide (c = "_"%char) && prev
          then dec_digits s' false acc
          else None
      end
  end.

(** The number of digits of a text of digits and underscores. *)
Fixpoint count_digits (s : string) : Z :=
  match s with
  | EmptyString => 0
  | String c s' =>
      (if bool_decide (c = "_"%char) then 0 else 1) + count_digits s'
  end.

(** [int(s)] on ASCII text; [None] stands for the [ValueError].  White
    space around the number is skipped and a sign is optional; base 10 has
    no prefix.  [max_str_digits] is [sys.get_int_max_str_digits()]: when it
    is positive a text of more digits is refused, and it is 0 where the
    interpreter has no such limit.  A text of at most 640 digits is never
    refused for its size. *)
Definition int10 (max_str_digits : Z) (s : string) : option Z :=
  let s := strip_by int_isspace s in
  let '(sign, s) :=
    match s with
    | String "+" s' => (1, s')
    | String "-" s' => (-1, s')
    | _ => (1, s)
    end in
  n ← dec_digits s false 0;
  let digits := count_digits s in
  if (640 <? digits) && (0 <? max_str_digits) && (max_str_digits <? digits)
  then None
  else Some (sign * n).

(** [all(p(c) for c in s)]. *)
Fixpoint all_chars (p : ascii → bool) (s : string) : bool :=
  match s with
  | EmptyString => true
  | String c s' => p c && all_chars p s'
  end.

End Py.

(** ** Outcomes, exceptions and the warning log *)

(** The exceptions the parsers raise or let through.  [InvalidMods] is the
    source's own class; [Exception] stands for whatever an argument parser
    raises. *)
Inductive exn : Type :=
  | IndexError (msg : string)
  | InvalidMods (msg : string)
  | Exception (msg : string).

Definition exn_str (e : exn) : string :=
  match e with IndexError m | InvalidMods m | Exception m => m end.

Inductive outcome (A : Type) : Type :=
  | Ret (a : A)
  | Raise (e : exn).
Arguments Ret {A} a.
Arguments Raise {A} e.

(** A computation that may call [log_error] and may raise: the messages
    logged, in order, and how it ended. *)
Definition M (A : Type) : Type := (list string * outcome A)%type.

#[global] Instance M_ret : MRet M := λ A a, ([], Ret a).

#[global] Instance M_bind : MBind M := λ A B k m,
  match m with
  | (l, Ret a) => let '(l', r) := k a in (l ++ l', r)
  | (l, Raise e) => (l, Raise e)
  end.

Definition raise {A} (e : exn) : M A := ([], Raise e).
Definition log_error (msg : string) : M unit := ([msg], Ret tt).

(** [try: m  except Exception as e: h e  else: k a]. *)
Definition try_except {A B} (m : M A) (h : exn → M B) (k : A → M B) : M B :=
  match m with
  | (l, Ret a) => let '(l', r) := k a in (l ++ l', r)
  | (l, Raise e) => let '(l', r) := h e in (l ++ l', r)
  end.

Definition returns {A} (m : M A) : Prop := ∃ a, m.2 = Ret a.
Definition raises {A} (m : M A) (e : exn) : Prop := m.2 = Raise e.

(** ** Data model *)

(** [kitty.types.SingleKey]. *)
Record SingleKey : Type := mkSingleKey {
  sk_mods : Z;
  sk_is_native : bool;
  sk_key : Z;
}.

(** [KeyAction]; the arguments are strings, as the class annotates them. *)
Record KeyAction : Type := mkKeyAction {
  func : string;
  args : list string;
}.

Record MouseMapping : Type := mkMouseMapping {
  button : Z;
  mods : Z;
  repeat_count : Z;
  grabbed : bool;
  mm_action : KeyAction;
}.

Record KeyDefinition : Type := mkKeyDefinition {
  is_sequence : bool;
  kd_action : KeyAction;
  trigger : SingleKey;
  rest : list SingleKey;
}.

(** [BaseDefinition]: what has an [action] attribute that can be read and
    assigned. *)
Class BaseDefinition (D : Type) : Type := {
  action : D → KeyAction;
  set_action : KeyAction → D → D;
  action_set_action : ∀ a d, action (set_action a d) = a;
}.

#[global] Instance MouseMapping_base : BaseDefinition MouseMapping := {|
  action := mm_action;
  set_action a d := mkMouseMapping (button d) (mods d) (repeat_count d) (grabbed d) a;
  action_set_action _ _ := eq_refl;
|}.

#[global] Instance KeyDefinition_base : BaseDefinition KeyDefinition := {|
  action := kd_action;
  set_action a d := mkKeyDefinition (is_sequence d) a (trigger d) (rest d);
  action_set_action _ _ := eq_refl;
|}.

(** An argument parser of the registry [args_funcs]: from the function name
    and the remainder to a function name and its arguments, or an
    exception. *)
Abbreviation arg_parser := (string → string → outcome (string * list string)).

(** ** Module constants *)

Definition mod_map : gmap string string :=
  list_to_map [("CTRL", "CONTROL"); ("CMD", "SUPER"); ("⌘", "SUPER");
               ("⌥", "ALT"); ("OPTION", "ALT"); ("KITTY_MOD", "KITTY")].

Definition sequence_sep : ascii := ">".

(** The two dictionary literals of [parse_mouse_map]. *)
Definition mouse_button_aliases : gmap string string :=
  list_to_map [("left", "b1"); ("middle", "b3"); ("right", "b2")].

Definition mouse_event_counts : gmap string Z :=
  list_to_map [("doubleclick", -3); ("click", -2); ("release", -1);
               ("press", 1); ("doublepress", 2); ("triplepress", 3)].

(** What the shortcut part of [parse_map] leaves in its local variables:
    [trigger] and [rest] for a sequence, [mods, is_native, key] otherwise. *)
Inductive shortcut_vars : Type :=
  | SeqVars (trigger : option SingleKey) (rest : list SingleKey)
  | KeyVars (k : SingleKey).

(** [KeyDefinition.__init__]. *)
Definition KeyDefinition_init (is_sequence : bool) (action : KeyAction)
    (mods : Z) (is_native : bool) (key : Z) (rest : list SingleKey) : KeyDefinition :=
  mkKeyDefinition is_sequence action (mkSingleKey mods is_native key) rest.

Definition ascii_uppercase : list string :=
  ["A"; "B"; "C"; "D"; "E"; "F"; "G"; "H"; "I"; "J"; "K"; "L"; "M";
   "N"; "O"; "P"; "Q"; "R"; "S"; "T"; "U"; "V"; "W"; "X"; "Y"; "Z"].

(** ** The parsers

    The collaborators that are not part of the file are the parameters of
    the section: the integer constants of [kitty.fast_data_types] (a name
    that is not bound is the [AttributeError] of [getattr]), its
    [resolve_key_mods], the two alias tables and the lookup function of
    [kitty.key_names], and the registry [args_funcs] filled by [key_func]. *)

Section Parsers.

Variable defines : gmap string Z.
Variable resolve_key_mods : Z → Z → Z.
Variable character_key_name_aliases : gmap string string.
Variable functional_key_name_aliases : gmap string string.
Variable get_key_name_lookup : string → bool → option Z.
Variable args_funcs : gmap string arg_parser.

(** The copy of [character_key_name_aliases] in which every ASCII capital
    is then bound to its lower-case letter. *)
Definition character_key_name_aliases_with_ascii_lowercase : gmap string string :=
  foldl (λ d x, <[x := Py.lower x]> d) character_key_name_aliases ascii_uppercase.

Definition map_mod (m : string) : string := default m (mod_map !! m).

(** The loop of [parse_mods], [mods] being the bits gathered so far. *)
Fixpoint parse_mods_from (mods : Z) (parts : list string) (sc : string) : M (option Z) :=
  match parts with
  | [] => mret (Some mods)
  | m :: parts' =>
      match defines !! ("GLFW_MOD_" +:+ map_mod (Py.upper m)) with
      | Some bits => parse_mods_from (Z.lor mods bits) parts' sc
      | None =>
          (if negb (String.eqb (Py.upper m) "NONE")
           then log_error ("Shortcut: " +:+ sc +:+ " has unknown modifier, ignoring")
           else mret tt);;
          mret None
      end
  end.

Definition parse_mods (parts : list string) (sc : string) : M (option Z) :=
  parse_mods_from 0 parts sc.

(** [x or 0] for an [Optional[int]]. *)
Definition or0 (x : option Z) : Z := default 0 x.

Definition to_modifiers (val : string) : M Z :=
  r ← parse_mods (Py.split "+" val) val; mret (or0 r).

Definition parse_shortcut (sc : string) : M SingleKey :=
  let sc := if Py.endswith "+" sc && (1 <? Py.len sc)
            then Py.drop_last sc +:+ "plus" else sc in
  let parts := Py.split "+" sc in
  mods ← (if (1 <? Z.of_nat (length parts))%Z then
            r ← parse_mods (removelast parts) sc;
            let mods := or0 r in
            if mods =? 0 then raise (InvalidMods "Invalid shortcut") else mret mods
          else mret 0);
  let q := List.last parts "" in
  let q := default q (character_key_name_aliases_with_ascii_lowercase !! Py.upper q) in
  let '(is_native, key) :=
    if Py.startswith "0x" q then
      match Py.int16 q with
      | None => (false, 0)
      | Some k => (true, k)
      end
    else
      match Py.ord q with
      | Some k => (false, k)
      | None =>
          let uq := Py.upper q in
          let uq := default uq (functional_key_name_aliases !! uq) in
          match defines !! ("GLFW_FKEY_" +:+ uq) with
          | None =>
              let key := or0 (get_key_name_lookup q false) in
              (0 <? key, key)
          | Some x => (false, x)
          end
      end in
  mret (mkSingleKey mods is_native key).

(** A segment of a sequence fails when its modifiers do not resolve, which
    [parse_shortcut] reports as [InvalidMods], or when its key code is 0. *)
Definition segment_fails (part : string) : Prop :=
  raises (parse_shortcut part) (InvalidMods "Invalid shortcut")
  ∨ ∃ k, (parse_shortcut part).2 = Ret k ∧ sk_key k = 0.

Definition parse_key_action (action : string) : M (option KeyAction) :=
  match Py.split_ws 1 (Py.strip action) with
  | [] => raise (IndexError "list index out of range")
  | [func] => mret (Some (mkKeyAction func []))
  | func :: rest :: _ =>
      match args_funcs !! func with
      | Some parser =>
          match parser func rest with
          | Raise err =>
              log_error ("Ignoring invalid key action: " +:+ action
                         +:+ " with err: " +:+ exn_str err);;
              mret None
          | Ret (func, args) => mret (Some (mkKeyAction func args))
          end
      | None => mret None
      end
  end.

(** The loop of [resolve_kitten_aliases] over [aliases.items()]. *)
Fixpoint alias_loop (items : list (string * list string))
    (changed : bool) (kitten rest : string) : M (bool * string * string) :=
  match items with
  | [] => mret (changed, kitten, rest)
  | (key, expanded) :: items' =>
      if String.eqb key kitten then
        match expanded with
        | [] => raise (IndexError "list index out of range")
        | e0 :: more =>
            let rest := match more with
                        | e1 :: _ => e1 +:+ " " +:+ rest
                        | [] => rest
                        end in
            alias_loop items' true e0 rest
        end
      else alias_loop items' changed kitten rest
  end.

(** [resolve_kitten_aliases] on the action, then on whatever carries one:
    the result is the object after the call. *)
Definition resolve_action (aliases : list (string * list string))
    (a : KeyAction) : M KeyAction :=
  match args a with
  | [] => mret a
  | kitten :: more =>
      let rest := match more with r :: _ => r | [] => "" end in
      '(changed, kitten, rest) ← alias_loop aliases false kitten rest;
      mret (if changed : bool then mkKeyAction (func a) [kitten; Py.rstrip rest] else a)
  end.

Definition resolve_kitten_aliases {D} `{BaseDefinition D}
    (aliases : list (string * list string)) (self : D) : M D :=
  a ← resolve_action aliases (action self); mret (set_action a self).

Definition MouseMapping_resolve (kitty_mod : Z) (self : MouseMapping) : MouseMapping :=
  mkMouseMapping (button self) (resolve_key_mods kitty_mod (mods self))
    (repeat_count self) (grabbed self) (mm_action self).

Definition KeyDefinition_resolve (kitty_mod : Z) (self : KeyDefinition) : KeyDefinition :=
  let r (k : SingleKey) : SingleKey :=
    let mods := resolve_key_mods kitty_mod (sk_mods k) in
    let key := sk_key k in
    let is_native := sk_is_native k in
    mkSingleKey mods is_native key in
  mkKeyDefinition (is_sequence self) (kd_action self) (r (trigger self)) (r <$> rest self).

(** What [parse_map] does with one parsed shortcut, in the loop over a
    sequence and for a single key alike: [None] is the [return] that ends
    the generator.  The test [mods is not None] before the message always
    holds, [mods] being an [int] there. *)
Definition checked_shortcut (sc part : string) : M (option SingleKey) :=
  try_except (parse_shortcut part)
    (λ e, match e with InvalidMods _ => mret None | _ => raise e end)
    (λ k, if sk_key k =? 0 then
            log_error ("Shortcut: " +:+ sc +:+ " has unknown key, ignoring");;
            mret None
          else mret (Some k)).

(** The loop of [parse_map] over the segments of a sequence. *)
Fixpoint parse_sequence (sc : string) (parts : list string)
    (trigger : option SingleKey) (restl : list SingleKey) : M (option shortcut_vars) :=
  match parts with
  | [] => mret (Some (SeqVars trigger restl))
  | part :: parts' =>
      r ← checked_shortcut sc part;
      match r with
      | None => mret None
      | Some k =>
          match trigger with
          | None => parse_sequence sc parts' (Some k) restl
          | Some _ => parse_sequence sc parts' trigger (restl ++ [k])
          end
      end
  end.

Definition parse_map (val : string) : M (list KeyDefinition) :=
  match Py.split_ws 1 val with
  | [sc; action] =>
      let sc := Py.strip_char sequence_sep (Py.strip sc) in
      let action := Py.strip action in
      if String.eqb sc "" || String.eqb action "" then mret []
      else
        let is_sequence := Py.contains sequence_sep sc in
        r ← (if is_sequence
             then parse_sequence sc (Py.split sequence_sep sc) None []
             else k ← checked_shortcut sc sc; mret (KeyVars <$> k));
        match r with
        | None => mret []
        | Some vars =>
            try_except (parse_key_action action)
              (λ _, log_error ("Invalid shortcut action: " +:+ action +:+ ". Ignoring.");;
                    mret [])
              (λ paction,
                 match paction, vars with
                 | None, _ => mret []
                 | Some paction, SeqVars (Some t) rest =>
                     mret [KeyDefinition_init true paction
                             (sk_mods t) (sk_is_native t) (sk_key t) rest]
                 | Some paction, SeqVars None _ => mret []
                 | Some paction, KeyVars k =>
                     mret [KeyDefinition_init false paction
                             (sk_mods k) (sk_is_native k) (sk_key k) []]
                 end)
        end
  | _ => mret []
  end.

Definition parse_mouse_map (val : string) : M (list MouseMapping) :=
  match Py.split_ws 3 val with
  | [xbutton; event; modes; action] =>
      let kparts := Py.split "+" xbutton in
      r ← (if 1 <? Z.of_nat (length kparts) then
             let obutton := Py.lower (List.last kparts "") in
             mods ← parse_mods (removelast kparts) obutton;
             mret (pair obutton <$> mods)
           else mret (Some (Py.lower xbutton, 0)));
      match r with
      | None => mret []
      | Some (obutton, mods) =>
          let b := Py.drop_first (default obutton (mouse_button_aliases !! obutton)) in
          match defines !! ("GLFW_MOUSE_BUTTON_" +:+ b) with
          | None =>
              log_error ("Mouse button: " +:+ xbutton +:+ " not recognized, ignoring");;
              mret []
          | Some button =>
              match mouse_event_counts !! Py.lower event with
              | None =>
                  log_error ("Mouse event type: " +:+ event +:+ " not recognized, ignoring");;
                  mret []
              | Some count =>
                  let specified_modes : gset string :=
                    list_to_set (Py.split "," (Py.lower modes)) in
                  if decide (specified_modes ∖ {["grabbed"; "ungrabbed"]} = ∅) then
                    try_except (parse_key_action action)
                      (λ _, log_error ("Invalid mouse action: " +:+ action +:+ ". Ignoring.");;
                            mret [])
                      (λ paction,
                         match paction with
                         | None =>
                             log_error ("Ignoring unknown mouse action: " +:+ action);;
                             mret []
                         | Some paction =>
                             mret ((λ mode, mkMouseMapping button mods count
                                              (String.eqb mode "grabbed") paction)
                                   <$> elements specified_modes)
                         end)
                  else
                    log_error ("Mouse modes: " +:+ modes +:+ " not recognized, ignoring");;
                    mret []
              end
          end
      end
  | _ => log_error ("Ignoring invalid mouse action: " +:+ val);; mret []
  end.

End Parsers.

(** ** The external collaborators, as far as the specification describes them *)

(** Modelled from the spec: [resolve_key_mods] of [kitty.fast_data_types],
    which is compiled code outside the file.  It "substitutes a reserved
    placeholder modifier bit with the concrete bits of [primaryModifier]":
    when the mask holds the placeholder, the placeholder is cleared and the
    bits of [kitty_mod] are set; otherwise the mask is returned as it is. *)
Definition resolve_key_mods_spec (placeholder kitty_mod mods : Z) : Z :=
  if Z.land mods placeholder =? 0 then mods
  else Z.lor (Z.land mods (Z.lnot placeholder)) kitty_mod.

(** Modelled from the spec: a sample of the constant tables of
    [kitty.fast_data_types] (modifier bits, two functional keys, the mouse
    buttons), on which the parsers are evaluated below.  The modifier table
    binds no name [GLFW_MOD_NONE]. *)
Definition sample_defines : gmap string Z :=
  list_to_map [("GLFW_MOD_SHIFT", 1); ("GLFW_MOD_ALT", 2); ("GLFW_MOD_CONTROL", 4);
               ("GLFW_MOD_SUPER", 8); ("GLFW_MOD_HYPER", 16); ("GLFW_MOD_META", 32);
               ("GLFW_MOD_CAPS_LOCK", 64); ("GLFW_MOD_NUM_LOCK", 128);
               ("GLFW_MOD_KITTY", 256);
               ("GLFW_FKEY_ESCAPE", 57344); ("GLFW_FKEY_ENTER", 57345);
               ("GLFW_MOUSE_BUTTON_1", 0); ("GLFW_MOUSE_BUTTON_2", 1);
               ("GLFW_MOUSE_BUTTON_3", 2)].

Definition sample_character_aliases : gmap string string :=
  list_to_map [("SPACE", " "); ("PLUS", "+"); ("MINUS", "-")].

Definition sample_functional_aliases : gmap string string :=
  list_to_map [("ESC", "ESCAPE"); ("RETURN", "ENTER")].

Definition sample_lookup : string → bool → option Z := λ _ _, None.

(** A sample registry with one argument parser, which cuts the remainder at
    its first white space. *)
Definition sample_args_funcs : gmap string arg_parser :=
  {[ "kitten" := (λ func rest, Ret (func, Py.split_ws 1 rest)) ]}.

(** [kitten_alias]: the entries it contributes to the kitten-alias table. *)
Definition kitten_alias (val : string) : list (string * list string) :=
  match Py.split_ws 2 val with
  | name :: p :: parts => [(name, p :: parts)]
  | _ => []
  end.

Abbreviation sample_parse_mods := (parse_mods sample_defines).
Abbreviation sample_parse_shortcut :=
  (parse_shortcut sample_defines sample_character_aliases
     sample_functional_aliases sample_lookup).
Abbreviation sample_parse_key_action := (parse_key_action sample_args_funcs).
Abbreviation sample_parse_map :=
  (parse_map sample_defines sample_character_aliases
     sample_functional_aliases sample_lookup sample_args_funcs).
Abbreviation sample_parse_mouse_map := (parse_mouse_map sample_defines sample_args_funcs).

(** ** The option converters of the file *)

#[global] Instance outcome_ret : MRet outcome := λ A a, Ret a.

#[global] Instance outcome_bind : MBind outcome := λ A B k m,
  match m with
  | Ret a => k a
  | Raise e => Raise e
  end.

(** [kitty.types.FloatEdges], a named tuple [(left, top, right, bottom)];
    the fields carry a prefix because [left] and [right] are constructors of
    the prelude.  The values are whatever the converter returns. *)
Record FloatEdges (A : Type) : Type := mkFloatEdges {
  fe_left : A;
  fe_top : A;
  fe_right : A;
  fe_bottom : A;
}.
Arguments mkFloatEdges {A} _ _ _ _.
Arguments fe_left {A} _.
Arguments fe_top {A} _.
Arguments fe_right {A} _.
Arguments fe_bottom {A} _.

Definition sys_maxunicode : Z := 1114111.

Definition double_quote : ascii := "034".

Definition disable_ligatures (x : string) : Z :=
  let cmap : gmap string Z := list_to_map [("never", 0); ("cursor", 1); ("always", 2)] in
  default 0 (cmap !! Py.lower x).

Definition resize_draw_strategy (x : string) : Z :=
  let cmap : gmap string Z :=
    list_to_map [("static", 0); ("scale", 1); ("blank", 2); ("size", 3)] in
  default 0 (cmap !! Py.lower x).

Definition tab_bar_edge (x : string) : Z :=
  default 3 ((list_to_map [("top", 1); ("bottom", 3)] : gmap string Z) !! Py.lower x).

Definition tab_font_style (x : string) : bool * bool :=
  default (false, false)
    ((list_to_map [("bold-italic", (true, true)); ("bold", (true, false));
                   ("italic", (false, true))] : gmap string (bool * bool))
     !! Py.replace "_" "-" (Py.lower x)).

(** [dict((v, i) for i, v in enumerate('none single double curly'.split()))]:
    the words are distinct, so no binding overwrites another. *)
Definition url_style_map : gmap string Z :=
  list_to_map (imap (λ i v, (v, Z.of_nat i)) (Py.split_all "none single double curly")).

(** [url_style]; [None] stands for the [KeyError] of [url_style_map['curly']]. *)
Definition url_style (x : string) : option Z :=
  d ← url_style_map !! "curly"; Some (default d (url_style_map !! x)).

Definition url_prefixes (x : string) : list string :=
  Py.lower <$> Py.split_all (Py.replace "," " " x).

Definition copy_on_select (raw : string) : string :=
  let q := Py.lower raw in
  if bool_decide (q ∈ ["y"; "yes"; "true"; "clipboard"]) then "clipboard"
  else if bool_decide (q ∈ ["n"; "no"; "false"; ""]) then ""
  else raw.

(** [scrollback_lines].  [int] is Python's builtin, a parameter here: the
    texts it reads depend on the interpreter, on its Unicode tables and on
    its limit on the number of digits.  [None] stands for the [ValueError]
    of [int], which the converter does not catch. *)
Definition scrollback_lines (int : string → option Z) (x : string) : option Z :=
  ans ← int x;
  let ans := if ans <? 0 then 2 ^ 32 - 1 else ans in
  Some ans.

Definition tab_activity_symbol (x : string) : option string :=
  if String.eqb x "none" then None
  else if String.eqb x "" then None else Some x.

(** The loop over the two quote characters, the single and then the
    double quote, of the template converters: the first one that both
    starts and ends [x] is taken off both ends by [x[1:-1]], and the loop
    stops.  The characters taken off are the quote, one byte each. *)
Fixpoint strip_quotes (qs : list ascii) (x : string) : string :=
  match qs with
  | [] => x
  | q :: qs' =>
      if Py.startswith_char q x && Py.endswith q x
      then match x with
           | String _ x' => Py.drop_last x'
           | EmptyString => EmptyString
           end
      else strip_quotes qs' x
  end.

Definition tab_title_template (x : string) : string :=
  if String.eqb x "" then x else strip_quotes ["'"%char; double_quote] x.

Definition active_tab_title_template (x : string) : option string :=
  let x := tab_title_template x in
  if String.eqb x "none" then None else Some x.

Definition clipboard_control (x : string) : gset string :=
  list_to_set (Py.split_all (Py.lower x)).

(** [to_chr] inside [symbol_map]; [None] stands for its [ValueError]. *)
Definition to_chr (x : string) : option Z :=
  if Py.startswith "U+" x then Py.int16 (Py.drop_first (Py.drop_first x)) else None.

(** [abort] inside [symbol_map], followed by the [return]. *)
Definition symbol_map_abort {A} (val : string) : M (list A) :=
  log_error ("Symbol map: " +:+ val +:+ " is invalid, ignoring");; mret [].

(** The loop of [symbol_map] over the ranges: what it yields, in order,
    until it ends or aborts. *)
Fixpoint symbol_map_ranges (val family : string) (items : list string)
    : M (list ((Z * Z) * string)) :=
  match items with
  | [] => mret []
  | x :: items' =>
      let '(a_, b_) := Py.partition "-" x in
      let b_ := if String.eqb b_ "" then a_ else b_ in
      match to_chr a_, to_chr b_ with
      | Some a, Some b =>
          if (b <? a) || (sys_maxunicode <? Z.max a b) || (Z.min a b <? 1)
          then symbol_map_abort val
          else more ← symbol_map_ranges val family items'; mret (((a, b), family) :: more)
      | _, _ => symbol_map_abort val
      end
  end.

Definition symbol_map (val : string) : M (list ((Z * Z) * string)) :=
  let parts := Py.split_all val in
  if Z.of_nat (length parts) <? 2 then symbol_map_abort val
  else
    let family := Py.join " " (tail parts) in
    symbol_map_ranges val family (Py.split "," (hd "" parts)).

Section Converters.

Context {A P : Type}.
Variable converter : string → outcome A.
Variable parse_font_feature : string → option P.
Variable expandvars : string → gmap string string → string.

(** The unpacking [top, right, bottom, left = map(converter, parts)]: the
    converter runs on the fields in order, on a fifth one too before the
    count is found wrong. *)
Definition edge_width (x : string) : outcome (FloatEdges A) :=
  match Py.split_all x with
  | [p] => val ← converter p; mret (mkFloatEdges val val val val)
  | [p0; p1] =>
      v ← converter p0; h ← converter p1; mret (mkFloatEdges h v h v)
  | [p0; p1; p2] =>
      top ← converter p0; h ← converter p1; bottom ← converter p2;
      mret (mkFloatEdges h top h bottom)
  | [p0; p1; p2; p3] =>
      top ← converter p0; right ← converter p1;
      bottom ← converter p2; left ← converter p3;
      mret (mkFloatEdges left top right bottom)
  | p0 :: p1 :: p2 :: p3 :: p4 :: _ =>
      _ ← converter p0; _ ← converter p1; _ ← converter p2;
      _ ← converter p3; _ ← converter p4;
      Raise (Exception "too many values to unpack (expected 4)")
  | [] => Raise (Exception "not enough values to unpack (expected 4, got 0)")
  end.

(** The loop of [font_features] over the feature tokens; [None] from the
    external parser stands for its [ValueError]. *)
Fixpoint parsed_features (feats : list string) : M (list (string * P)) :=
  match feats with
  | [] => mret []
  | feat :: feats' =>
      match parse_font_feature feat with
      | None =>
          log_error ("Ignoring invalid font feature: " +:+ feat);;
          parsed_features feats'
      | Some parsed => fs ← parsed_features feats'; mret ((feat, parsed) :: fs)
      end
  end.

Definition font_features (val : string) : M (list (string * list (string * P))) :=
  if String.eqb val "none" then mret []
  else
    let parts := Py.split_all val in
    if Z.of_nat (length parts) <? 2 then
      log_error ("Ignoring invalid font_features " +:+ val);; mret []
    else
      match parts with
      | p0 :: feats =>
          if negb (String.eqb p0 "")
          then features ← parsed_features feats; mret [(p0, features)]
          else mret []
      | [] => mret []
      end.

Definition env (val : string) (current_val : gmap string string)
    : list (string * string) :=
  let '(key, val) := Py.partition "=" val in
  let key := Py.strip key in
  let val := Py.strip val in
  if negb (String.eqb key "") then [(key, expandvars val current_val)] else [].

End Converters.

Example split_ws_ex1 : Py.split_ws 1 "  a   b c  " = ["a"; "b c  "].
Proof. reflexivity. Qed.
Example split_ws_ex2 : Py.split_ws 1 "a   " = ["a"].
Proof. reflexivity. Qed.
Example split_ws_ex3 : Py.split_ws 3 "left  press grabbed,ungrabbed  close_tab now " =
  ["left"; "press"; "grabbed,ungrabbed"; "close_tab now "].
Proof. reflexivity. Qed.
Example split_ex1 : Py.split "+" "ctrl+shift+a" = ["ctrl"; "shift"; "a"].
Proof. reflexivity. Qed.
Example split_ex2 : Py.split "+" "" = [""] ∧ Py.split "+" "+" = [""; ""].
Proof. split; reflexivity. Qed.
Example strip_ex : Py.strip_char ">" (Py.strip " >a>b>> ") = "a>b".
Proof. reflexivity. Qed.
Example int16_ex : Py.int16 "0x41" = Some 65 ∧ Py.int16 "0x" = None ∧ Py.int16 "0x4_1" = Some 65
  ∧ Py.int16 "0x4__1" = None ∧ Py.int16 "0xg" = None.
Proof. repeat split; reflexivity. Qed.
Example int_space_ex :
  Py.int16 (String "009" "0x41 ") = Some 65 ∧ Py.int16 (String "031" "0x41") = None
  ∧ Py.int16 ("0x41" +:+ String "031" "") = None
  ∧ Py.int10 4300 " -1_2 " = Some (-12) ∧ Py.int10 4300 (String "028" "12") = None
  ∧ Py.int10 4300 (string_of_list_ascii (replicate 4301 "1"%char)) = None.
Proof. repeat split; vm_compute; reflexivity. Qed.
Example ord_ex : Py.ord "a" = Some 97 ∧ Py.ord "" = None ∧ Py.ord "ab" = None ∧ Py.ord "⌘" = Some 8984.
Proof. repeat split; reflexivity. Qed.
Example blank_ex :
  Py.blank "" = true ∧ Py.blank (String "009" " ") = true
  ∧ Py.blank (" " +:+ String "194" (String "160" "") +:+ String "226" (String "128" (String "137" "")))
    = true
  ∧ Py.blank " a " = false ∧ Py.blank "é" = false ∧ Py.blank (String "000" "") = false
  ∧ Py.blank (String "226" (String "128" (String "139" ""))) = false.
Proof. repeat split; reflexivity. Qed.
Example upper_ex : Py.upper "kitty_Mod" = "KITTY_MOD" ∧ Py.lower "GraBBed" = "grabbed".
Proof. split; reflexivity. Qed.

(** ** The outcome monad *)

Lemma bind_ret_M {A B} (l : list string) (a : A) (k : A → M B) :
  ((l, Ret a) ≫= k) = (l ++ (k a).1, (k a).2).
Proof. unfold mbind, M_bind. by destruct (k a). Qed.

Lemma bind_raise_M {A B} (l : list string) (e : exn) (k : A → M B) :
  ((l, Raise e) ≫= k) = (l, Raise e).
Proof. reflexivity. Qed.

Lemma bind_mret_M {A B} (a : A) (k : A → M B) : (mret a ≫= k) = k a.
Proof. unfold mret, M_ret. rewrite bind_ret_M. by destruct (k a). Qed.

(** ** Table lookups *)

Lemma foldl_insert_notin (f : string → string) (l : list string)
    (base : gmap string string) (x : string) :
  x ∉ l → foldl (λ d y, <[y := f y]> d) base l !! x = base !! x.
Proof.
  revert base. induction l as [|y l IH]; intros base Hx; [done|].
  apply not_elem_of_cons in Hx as [Hxy Hl]. simpl.
  rewrite IH by done. by rewrite lookup_insert_ne.
Qed.

Lemma foldl_insert_in (f : string → string) (l : list string)
    (base : gmap string string) (x : string) :
  x ∈ l → foldl (λ d y, <[y := f y]> d) base l !! x = Some (f x).
Proof.
  revert base. induction l as [|y l IH]; intros base Hx.
  - by apply elem_of_nil in Hx.
  - simpl. destruct (decide (x ∈ l)) as [Hl|Hl]; [by apply IH|].
    apply elem_of_cons in Hx as [->|Hx]; [|done].
    rewrite foldl_insert_notin by done. apply lookup_insert_eq.
Qed.

(** An ASCII capital is bound to its lower-case letter, whatever the
    external alias table binds it to. *)
Lemma aliases_with_ascii_lowercase_capital (cka : gmap string string) (x : string) :
  x ∈ ascii_uppercase →
  character_key_name_aliases_with_ascii_lowercase cka !! x = Some (Py.lower x).
Proof. apply foldl_insert_in. Qed.

(** ** Facts on the string primitives *)

Lemma lstrip_by_head (p : ascii → bool) (s : string) (c : ascii) (r : string) :
  Py.lstrip_by p s = String c r → p c = false.
Proof.
  induction s as [|a s IH]; simpl; [done|].
  destruct (p a) eqn:Hp; [done|]. by intros [= <- _].
Qed.

Lemma rstrip_by_keep (p : ascii → bool) (c : ascii) (s : string) :
  p c = false → Py.rstrip_by p (String c s) = String c (Py.rstrip_by p s).
Proof. intros Hp. simpl. destruct (Py.rstrip_by p s); by rewrite ?Hp. Qed.

Lemma rstrip_by_idempotent (p : ascii → bool) (s : string) :
  Py.rstrip_by p (Py.rstrip_by p s) = Py.rstrip_by p s.
Proof.
  induction s as [|c s IH]; simpl; [done|].
  destruct (Py.rstrip_by p s) as [|c' r] eqn:E.
  - destruct (p c) eqn:Hp; simpl; [done|]. by rewrite Hp.
  - change (Py.rstrip_by p (String c (String c' r)) = String c (String c' r)).
    remember (String c' r) as t. simpl. rewrite IH. by subst t.
Qed.

Lemma strip_empty_iff (s : string) : Py.strip s = "" ↔ Py.lstrip s = "".
Proof.
  unfold Py.strip, Py.strip_by, Py.lstrip.
  destruct (Py.lstrip_by Py.isspace s) as [|c r] eqn:E; [done|].
  apply lstrip_by_head in E. by rewrite rstrip_by_keep.
Qed.

(** Stripping leaves nothing exactly when every character is stripped. *)
Lemma lstrip_by_empty (p : ascii → bool) (s : string) :
  Py.lstrip_by p s = "" ↔ Py.all_chars p s = true.
Proof.
  induction s as [|c s IH]; simpl; [done|].
  destruct (p c); simpl; [done|]. split; discriminate.
Qed.

(** A text of ASCII white space is blank. *)
Lemma isspace_isspace_char (c : ascii) :
  Py.isspace c = true → Py.isspace_char (String c EmptyString) = true.
Proof.
  unfold Py.isspace, Py.isspace_char, Py.ord, Py.bytes, Py.isspace_cp.
  cbn [list_ascii_of_string fmap list_fmap]. intros Hc.
  assert (Hlt : (Py.code c <? 128) = true) by (apply Z.ltb_lt; lia).
  rewrite Hlt, Hc. reflexivity.
Qed.

Lemma all_isspace_blank (s : string) :
  Py.all_chars Py.isspace s = true → Py.blank s = true.
Proof.
  induction s as [|c s IH]; [done|].
  intros [Hc Hs]%andb_prop. cbn [Py.blank].
  rewrite (isspace_isspace_char c Hc). by apply IH.
Qed.

Lemma lstrip_strip (s : string) : Py.lstrip (Py.strip s) = Py.strip s.
Proof.
  unfold Py.strip, Py.strip_by, Py.lstrip.
  destruct (Py.lstrip_by Py.isspace s) as [|c r] eqn:E; [done|].
  apply lstrip_by_head in E. rewrite rstrip_by_keep by done.
  simpl. by rewrite E.
Qed.

Lemma split_ws_nil (n : nat) (s : string) : Py.split_ws n s = [] ↔ Py.lstrip s = "".
Proof.
  destruct n; simpl; destruct (Py.lstrip s) as [|c r]; try (split; done).
  destruct (Py.isspace c); [|destruct (Py.take_word r)]; split; done.
Qed.

(** ** Facts on outcomes *)

Lemma returns_mret {A} (a : A) : returns (mret a : M A).
Proof. by exists a. Qed.

Lemma returns_bind {A B} (m : M A) (k : A → M B) :
  returns m → (∀ a, returns (k a)) → returns (m ≫= k).
Proof.
  intros [a Ha] Hk. destruct m as [l o]; simpl in Ha; subst o.
  rewrite bind_ret_M. apply Hk.
Qed.

Lemma returns_try_except {A B} (m : M A) (h : exn → M B) (k : A → M B) :
  (∀ e, returns (h e)) → (∀ a, returns (k a)) → returns (try_except m h k).
Proof.
  intros Hh Hk. destruct m as [l [a|e]]; unfold try_except.
  - destruct (Hk a) as [b Hb]. destruct (k a); by exists b.
  - destruct (Hh e) as [b Hb]. destruct (h e); by exists b.
Qed.

Lemma returns_log {B} (msg : string) (m : M B) : returns m → returns (log_error msg;; m).
Proof. intros Hm. apply returns_bind; [by exists tt|done]. Qed.

Lemma raises_not_returns {A} (m : M A) (e : exn) : raises m e → ¬ returns m.
Proof. intros Hr [a Ha]. unfold raises in Hr. congruence. Qed.

Create HintDb outcome.
#[local] Hint Resolve returns_mret returns_log : outcome.

(** Evaluate a closed subterm in place. *)
Ltac compute_term t := let v := eval vm_compute in t in change t with v.

(** ** Facts on the parsers *)

Section ParserFacts.

Variable defines : gmap string Z.
Variable cka fka : gmap string string.
Variable lf : string → bool → option Z.
Variable args_funcs : gmap string arg_parser.

Lemma parse_mods_from_returns mods parts sc :
  returns (parse_mods_from defines mods parts sc).
Proof.
  revert mods. induction parts as [|m parts IH]; intros mods; simpl.
  - apply returns_mret.
  - destruct (defines !! _); [apply IH|].
    apply returns_bind; [|intros; apply returns_mret].
    destruct (negb _); [by exists tt|apply returns_mret].
Qed.

(** Tokens that all resolve only add their bits and log nothing. *)
Lemma parse_mods_from_app mods pre post sc :
  Forall (λ t, is_Some (defines !! ("GLFW_MOD_" +:+ map_mod (Py.upper t)))) pre →
  ∃ mods', parse_mods_from defines mods (pre ++ post) sc
           = parse_mods_from defines mods' post sc.
Proof.
  intros Hpre. revert mods.
  induction Hpre as [|t pre [bits Ht] _ IH]; intros mods; simpl; [by eexists|].
  rewrite Ht. apply IH.
Qed.

(** [parse_shortcut] returns a trigger or raises [InvalidMods]: the
    [ValueError] of [int] and the [TypeError] of [ord] are caught inside. *)
Lemma parse_shortcut_outcome sc :
  returns (parse_shortcut defines cka fka lf sc)
  ∨ raises (parse_shortcut defines cka fka lf sc) (InvalidMods "Invalid shortcut").
Proof.
  unfold parse_shortcut. cbv zeta.
  match goal with |- context [Py.split "+" ?X] => generalize X; intros sc' end.
  generalize (Py.split "+" sc'); intros parts.
  match goal with |- context [let '(_, _) := ?X in _] => generalize X end.
  intros [n k].
  destruct (1 <? Z.of_nat (length parts)).
  - destruct (parse_mods_from_returns 0 (removelast parts) sc') as [r Hr].
    unfold parse_mods. destruct (parse_mods_from _ _ _ _) as [l o].
    simpl in Hr; subst o. rewrite bind_ret_M.
    destruct (or0 r =? 0).
    + right. reflexivity.
    + left. eexists. reflexivity.
  - left. rewrite bind_mret_M. eexists. reflexivity.
Qed.

Lemma checked_shortcut_returns sc part :
  returns (checked_shortcut defines cka fka lf sc part).
Proof.
  unfold checked_shortcut.
  destruct (parse_shortcut_outcome part) as [[k Hk]|Hr];
    destruct (parse_shortcut _ _ _ _ _) as [l o];
    unfold raises in *; simpl in *; subst o; unfold try_except.
  - destruct (sk_key k =? 0); eexists; reflexivity.
  - eexists; reflexivity.
Qed.

Lemma parse_sequence_returns sc parts trigger restl :
  returns (parse_sequence defines cka fka lf sc parts trigger restl).
Proof.
  revert trigger restl.
  induction parts as [|part parts IH]; intros trigger restl; simpl.
  - apply returns_mret.
  - apply returns_bind; [apply checked_shortcut_returns|].
    intros [k|]; [|apply returns_mret]. destruct trigger; apply IH.
Qed.

(** [parse_key_action] raises exactly on the input without any character
    that is not white space, where [parts[0]] does not exist. *)
Lemma parse_key_action_outcome action :
  (Py.strip action = ""
   ∧ parse_key_action args_funcs action = ([], Raise (IndexError "list index out of range")))
  ∨ (Py.strip action ≠ "" ∧ returns (parse_key_action args_funcs action)).
Proof.
  unfold parse_key_action.
  destruct (Py.split_ws 1 (Py.strip action)) as [|f [|r tl]] eqn:E.
  - left. split; [|done].
    apply split_ws_nil in E. by rewrite lstrip_strip in E.
  - right. split; [|apply returns_mret].
    intros Hs. rewrite Hs in E. discriminate E.
  - right. split; [intros Hs; rewrite Hs in E; discriminate E|].
    destruct (args_funcs !! f) as [parser|]; [|apply returns_mret].
    destruct (parser f r) as [[f' a']|err]; auto with outcome.
Qed.

Lemma parse_map_returns val :
  returns (parse_map defines cka fka lf args_funcs val).
Proof.
  unfold parse_map.
  destruct (Py.split_ws 1 val) as [|sc [|action [|? ?]]]; try apply returns_mret.
  cbv zeta. destruct (_ || _); [apply returns_mret|].
  apply returns_bind.
  - destruct (Py.contains _ _); [apply parse_sequence_returns|].
    apply returns_bind; [apply checked_shortcut_returns|intros; apply returns_mret].
  - intros [vars|]; [|apply returns_mret].
    apply returns_try_except; [auto with outcome|].
    intros [pa|]; [|apply returns_mret].
    destruct vars as [[t|] rest|k]; apply returns_mret.
Qed.

Lemma parse_mouse_map_returns val :
  returns (parse_mouse_map defines args_funcs val).
Proof.
  unfold parse_mouse_map.
  destruct (Py.split_ws 3 val) as [|xbutton [|event [|modes [|action [|? ?]]]]];
    auto with outcome.
  cbv zeta. apply returns_bind.
  - destruct (1 <? _); [|apply returns_mret].
    apply returns_bind; [apply parse_mods_from_returns|intros; apply returns_mret].
  - intros [[obutton mods]|]; [|apply returns_mret].
    destruct (defines !! _); [|auto with outcome].
    destruct (mouse_event_counts !! _); [|auto with outcome].
    destruct (decide _); [|auto with outcome].
    apply returns_try_except; [auto with outcome|].
    intros [pa|]; auto with outcome.
Qed.

End ParserFacts.

(** ** Action parsing *)

(** C1, as stated, fails: for a function name without a registered argument
    parser, [parse_key_action] does not return the [KeyAction] that holds
    the remainder as its single argument. *)
Lemma parse_key_action_unregistered_not_opaque :
  ¬ (∀ (args_funcs : gmap string arg_parser) (action func rest : string),
       Py.split_ws 1 (Py.strip action) = [func; rest] →
       args_funcs !! func = None →
       (parse_key_action args_funcs action).2 = Ret (Some (mkKeyAction func [rest]))).
Proof.
  intros H.
  specialize (H sample_args_funcs "foo bar" "foo" "bar" eq_refl eq_refl).
  vm_compute in H. discriminate H.
Qed.

(** C1, amended.  When the function name has no registered argument parser
    and a remainder follows it, [parse_key_action] returns [None] and logs
    nothing: no [KeyAction] is built and the remainder is not kept. *)
Theorem parse_key_action_unregistered (args_funcs : gmap string arg_parser)
    (action func rest : string) :
  Py.split_ws 1 (Py.strip action) = [func; rest] →
  args_funcs !! func = None →
  parse_key_action args_funcs action = ([], Ret None).
Proof.
  intros Hsplit Hnone. unfold parse_key_action.
  rewrite Hsplit. cbv beta iota. by rewrite Hnone.
Qed.

Lemma parse_key_action_unregistered_witness :
  Py.split_ws 1 (Py.strip "foo bar") = ["foo"; "bar"]
  ∧ sample_args_funcs !! "foo" = None
  ∧ parse_key_action sample_args_funcs "foo bar" = ([], Ret None).
Proof.
  split; [reflexivity|]. split; [reflexivity|].
  apply (parse_key_action_unregistered sample_args_funcs "foo bar" "foo" "bar");
    reflexivity.
Defined.

(** ** Modifier resolution *)

(** C2, as stated, fails: the token [none] makes [parse_mods] return [None]
    and not the mask 0, and a token next to it is not resolved either. *)
Lemma parse_mods_none_is_failure :
  (parse_mods sample_defines ["none"] "none").2 ≠ Ret (Some 0)
  ∧ (parse_mods sample_defines ["none"; "ctrl"] "none+ctrl").2 ≠ Ret (Some 4)
  ∧ (parse_mods sample_defines ["ctrl"; "NONE"] "ctrl+NONE").2 ≠ Ret (Some 4).
Proof. repeat split; vm_compute; discriminate. Qed.

(** C2, amended.  When the modifier table binds no [GLFW_MOD_NONE], a token
    that is [NONE] in any letter case, met after tokens that resolve, ends
    [parse_mods] with [None] and without a warning: the bits gathered so far
    are dropped and the tokens after it are not looked at.  Only
    [to_modifiers] turns that [None] into the mask 0. *)
Theorem parse_mods_none_token (defines : gmap string Z)
    (pre : list string) (m : string) (post : list string) (sc : string) :
  defines !! "GLFW_MOD_NONE" = None →
  Py.upper m = "NONE" →
  Forall (λ t, is_Some (defines !! ("GLFW_MOD_" +:+ map_mod (Py.upper t)))) pre →
  parse_mods defines (pre ++ m :: post) sc = ([], Ret None)
  ∧ (Py.split "+" sc = pre ++ m :: post → to_modifiers defines sc = ([], Ret 0)).
Proof.
  intros Hnone Hm Hpre.
  assert (Hp : parse_mods defines (pre ++ m :: post) sc = ([], Ret None)).
  { unfold parse_mods.
    destruct (parse_mods_from_app defines 0 pre (m :: post) sc Hpre) as [mods' ->].
    simpl. rewrite Hm.
    compute_term (map_mod "NONE"). compute_term ("GLFW_MOD_" +:+ "NONE").
    rewrite Hnone. reflexivity. }
  split; [exact Hp|].
  intros Hsplit. unfold to_modifiers. rewrite Hsplit, Hp. reflexivity.
Qed.

Lemma parse_mods_none_token_witness :
  parse_mods sample_defines ["ctrl"; "None"; "shift"] "ctrl+None+shift" = ([], Ret None)
  ∧ to_modifiers sample_defines "ctrl+None+shift" = ([], Ret 0).
Proof.
  destruct (parse_mods_none_token sample_defines ["ctrl"] "None" ["shift"]
              "ctrl+None+shift") as [Hmods Hto].
  - reflexivity.
  - reflexivity.
  - constructor; [|constructor]. exists 4. reflexivity.
  - split; [exact Hmods|]. apply Hto. reflexivity.
Defined.

(** ** Entry points and exceptions *)

(** C4, as stated, fails: on the empty string and on a string of white space
    [parse_key_action] raises [IndexError] instead of returning. *)
Lemma parse_key_action_raises_on_blank :
  ¬ returns (parse_key_action sample_args_funcs "")
  ∧ ¬ returns (parse_key_action sample_args_funcs "   ").
Proof.
  split; apply raises_not_returns with (e := IndexError "list index out of range");
    reflexivity.
Qed.

(** C4, amended.  [parse_map] and [parse_mouse_map] return on every input:
    no exception leaves them.  [parse_key_action] returns on every input
    that holds a character other than white space, and raises [IndexError]
    on the empty string and on every string of ASCII white space alone. *)
Theorem parse_entry_points_outcome (defines : gmap string Z)
    (cka fka : gmap string string) (lf : string → bool → option Z)
    (args_funcs : gmap string arg_parser) (val : string) :
  returns (parse_map defines cka fka lf args_funcs val)
  ∧ returns (parse_mouse_map defines args_funcs val)
  ∧ (Py.blank val = false → returns (parse_key_action args_funcs val))
  ∧ (Py.all_chars Py.isspace val = true →
     raises (parse_key_action args_funcs val) (IndexError "list index out of range")).
Proof.
  split; [apply parse_map_returns|]. split; [apply parse_mouse_map_returns|].
  destruct (parse_key_action_outcome args_funcs val) as [[He Hr]|[Hne Hr]].
  - split; [|intros _; unfold raises; by rewrite Hr].
    intros Hb. apply strip_empty_iff, lstrip_by_empty, all_isspace_blank in He.
    rewrite He in Hb. discriminate Hb.
  - split; [done|]. intros Hall. destruct Hne.
    by apply strip_empty_iff, lstrip_by_empty.
Qed.

Lemma parse_entry_points_outcome_witness :
  returns (sample_parse_map "ctrl+a  ")
  ∧ returns (sample_parse_mouse_map "left press grabbed")
  ∧ returns (parse_key_action sample_args_funcs " goto_tab x")
  ∧ returns (parse_key_action sample_args_funcs "é")
  ∧ raises (parse_key_action sample_args_funcs (String "009" " "))
      (IndexError "list index out of range").
Proof.
  split; [|split; [|split; [|split]]].
  - apply (parse_entry_points_outcome sample_defines sample_character_aliases
             sample_functional_aliases sample_lookup sample_args_funcs "ctrl+a  ").
  - apply (parse_entry_points_outcome sample_defines sample_character_aliases
             sample_functional_aliases sample_lookup sample_args_funcs
             "left press grabbed").
  - apply (parse_entry_points_outcome sample_defines sample_character_aliases
             sample_functional_aliases sample_lookup sample_args_funcs " goto_tab x").
    reflexivity.
  - apply (parse_entry_points_outcome sample_defines sample_character_aliases
             sample_functional_aliases sample_lookup sample_args_funcs "é").
    reflexivity.
  - apply (parse_entry_points_outcome sample_defines sample_character_aliases
             sample_functional_aliases sample_lookup sample_args_funcs (String "009" " ")).
    reflexivity.
Defined.

(** ** Single triggers *)



(** ** Kitten aliases *)

(** Non-membership in a list of distinct literals. *)
Ltac solve_not_elem :=
  simpl; repeat (apply not_elem_of_cons; split; [discriminate|]); apply not_elem_of_nil.

Lemma alias_loop_skip (items : list (string * list string))
    (changed : bool) (kitten rest : string) :
  kitten ∉ items.*1 →
  alias_loop items changed kitten rest = mret (changed, kitten, rest).
Proof.
  induction items as [|[key expanded] items IH]; intros Hk; [done|].
  rewrite fmap_cons in Hk. apply not_elem_of_cons in Hk as [Hne Hk].
  simpl. destruct (String.eqb_spec key kitten) as [->|_]; [done|]. by apply IH.
Qed.

Lemma alias_loop_app (pre post : list (string * list string))
    (changed : bool) (kitten rest : string) :
  kitten ∉ pre.*1 →
  alias_loop (pre ++ post) changed kitten rest = alias_loop post changed kitten rest.
Proof.
  induction pre as [|[key expanded] pre IH]; intros Hk; [done|].
  rewrite fmap_cons in Hk. apply not_elem_of_cons in Hk as [Hne Hk].
  simpl. destruct (String.eqb_spec key kitten) as [->|_]; [done|]. by apply IH.
Qed.

(** When no expansion is empty the loop ends without an exception; it either
    met no key equal to the current name and changed nothing, or it ends
    with [changed] set and with the first element of an expansion as the
    name. *)
Lemma alias_loop_total (items : list (string * list string))
    (changed : bool) (kitten rest : string) :
  Forall (λ kv, kv.2 ≠ []) items →
  ∃ changed' kitten' rest',
    alias_loop items changed kitten rest = ([], Ret (changed', kitten', rest'))
    ∧ ((changed' = changed ∧ kitten' = kitten ∧ rest' = rest ∧ kitten ∉ items.*1)
       ∨ (changed' = true ∧ ∃ key more, (key, kitten' :: more) ∈ items)).
Proof.
  intros Hne. revert changed kitten rest.
  induction Hne as [|[key expanded] items Hx _ IH]; intros changed kitten rest.
  - exists changed, kitten, rest. split; [done|]. left. repeat split. apply not_elem_of_nil.
  - simpl in Hx. simpl. destruct (String.eqb_spec key kitten) as [->|Hk].
    + destruct expanded as [|e0 more]; [done|].
      match goal with |- context [alias_loop items true e0 ?r] =>
        destruct (IH true e0 r) as (c' & k' & r' & -> & Hcase) end.
      exists c', k', r'. split; [done|]. right.
      destruct Hcase as [(-> & -> & _ & _)|[-> (key & more' & Hin)]].
      * split; [done|]. exists kitten, more. apply elem_of_cons. by left.
      * split; [done|]. exists key, more'. apply elem_of_cons. by right.
    + destruct (IH changed kitten rest) as (c' & k' & r' & -> & Hcase).
      exists c', k', r'. split; [done|].
      destruct Hcase as [(-> & -> & -> & Hnot)|[-> (key' & more' & Hin)]].
      * left. repeat split. apply not_elem_of_cons. split; [|done].
        simpl. congruence.
      * right. split; [done|]. exists key', more'. apply elem_of_cons. by right.
Qed.

(** What [kitten_alias] puts in the table is never an empty expansion. *)
Lemma kitten_alias_nonempty (val : string) :
  Forall (λ kv, kv.2 ≠ []) (kitten_alias val).
Proof.
  unfold kitten_alias. destruct (Py.split_ws 2 val) as [|name [|p parts]]; repeat constructor.
  done.
Qed.

(** C3, as stated, fails: with the table [a -> b x], [b -> c y] the call
    rewrites the plugin name [a] twice, since the entry [b] that follows the
    applied one re-expands the substituted name. *)
Lemma resolve_kitten_aliases_rewrites_twice :
  ¬ (∀ (aliases : list (string * list string)) (self : KeyDefinition)
       (k : string) (more : list string) (e0 : string) (es : list string),
       NoDup aliases.*1 →
       args (action self) = k :: more →
       (k, e0 :: es) ∈ aliases →
       ∃ self', (resolve_kitten_aliases aliases self).2 = Ret self'
                ∧ args (action self')
                  = [e0; Py.rstrip (match es with
                                    | e1 :: _ => e1 +:+ " " +:+ hd "" more
                                    | [] => hd "" more
                                    end)]).
Proof.
  intros H.
  destruct (H [("a", ["b"; "x"]); ("b", ["c"; "y"])]
              (mkKeyDefinition false (mkKeyAction "kitten" ["a"; "r"])
                 (mkSingleKey 4 false 97) [])
              "a" ["r"] "b" ["x"]) as (self' & Hr & Ha).
  - apply NoDup_cons. split; [solve_not_elem|]. apply NoDup_singleton.
  - reflexivity.
  - apply elem_of_cons. by left.
  - vm_compute in Hr. injection Hr as <-. vm_compute in Ha. discriminate Ha.
Qed.

(** C3, amended.  The alias table is scanned once to its end, in iteration
    order, against the current plugin name.  The entry whose key is the
    plugin name is applied, and when no entry after it has the substituted
    name as key this is the only rewrite of the call: the result holds the
    first element of that expansion and the stripped trailing arguments,
    with the second element of the expansion put before them.  Entries
    before the applied one never re-expand the substituted name. *)
Theorem resolve_kitten_aliases_single_rewrite {D} `{BaseDefinition D}
    (pre post : list (string * list string)) (k e0 : string) (es more : list string)
    (self : D) :
  NoDup (pre ++ (k, e0 :: es) :: post).*1 →
  args (action self) = k :: more →
  e0 ∉ post.*1 →
  resolve_kitten_aliases (pre ++ (k, e0 :: es) :: post) self
  = ([], Ret (set_action
                (mkKeyAction (func (action self))
                   [e0; Py.rstrip (match es with
                                   | e1 :: _ => e1 +:+ " " +:+ hd "" more
                                   | [] => hd "" more
                                   end)])
                self)).
Proof.
  intros Hnd Hargs Hpost.
  assert (Hpre : k ∉ pre.*1).
  { rewrite fmap_app, fmap_cons in Hnd. apply NoDup_app in Hnd as (_ & Hdisj & _).
    intros Hin. apply (Hdisj k Hin). apply elem_of_cons. by left. }
  unfold resolve_kitten_aliases, resolve_action. rewrite Hargs.
  rewrite alias_loop_app by done. simpl alias_loop. rewrite String.eqb_refl.
  rewrite alias_loop_skip by done.
  rewrite !bind_mret_M. by destruct more, es.
Qed.

Lemma resolve_kitten_aliases_single_rewrite_witness :
  resolve_kitten_aliases ([("b", ["c"; "y"])] ++ ("a", "b" :: ["x"]) :: [("d", ["e"])])
    (mkKeyDefinition false (mkKeyAction "kitten" ["a"; "r "; "s"]) (mkSingleKey 4 false 97) [])
  = ([], Ret (mkKeyDefinition false (mkKeyAction "kitten" ["b"; "x r"])
                (mkSingleKey 4 false 97) [])).
Proof.
  refine (resolve_kitten_aliases_single_rewrite [("b", ["c"; "y"])] [("d", ["e"])]
            "a" "b" ["x"] ["r "; "s"]
            (mkKeyDefinition false (mkKeyAction "kitten" ["a"; "r "; "s"])
               (mkSingleKey 4 false 97) []) _ _ _).
  - apply NoDup_cons. split; [solve_not_elem|].
    apply NoDup_cons. split; [solve_not_elem|]. apply NoDup_singleton.
  - reflexivity.
  - solve_not_elem.
Defined.

(** Once a key equal to the current name lies ahead, the flag the loop
    starts with does not matter: the entry sets it. *)
Lemma alias_loop_matched (items : list (string * list string))
    (c1 c2 : bool) (kitten rest : string) :
  kitten ∈ items.*1 →
  alias_loop items c1 kitten rest = alias_loop items c2 kitten rest.
Proof.
  induction items as [|[key expanded] items IH]; intros Hk.
  - by apply elem_of_nil in Hk.
  - simpl. destruct (String.eqb_spec key kitten) as [->|Hne]; [done|].
    rewrite fmap_cons in Hk. apply elem_of_cons in Hk as [Hk|Hk]; [|by apply IH].
    simpl in Hk. congruence.
Qed.

(** C10.  When some alias key equals argument 0, take the first such entry
    of the table, [k -> e0 es].  With no empty expansion after it (as
    [kitten_alias] ensures) the call returns, and the argument list
    afterwards has exactly two elements, whatever the action held past
    index 1: the expanded plugin name and the trailing-arguments string,
    right-stripped.  When no later key equals [e0] they are [e0] and the
    stripped argument 1 (the empty string when there is none) with [es]'s
    first element and a space put before it; when a later key equals [e0]
    they are what the rest of the table makes of the action with these two
    arguments. *)
Theorem resolve_kitten_aliases_two_arguments {D} `{BaseDefinition D}
    (pre post : list (string * list string)) (k e0 : string) (es more : list string)
    (self : D) :
  args (action self) = k :: more →
  k ∉ pre.*1 →
  Forall (λ kv, kv.2 ≠ []) post →
  let merged := match es with
                | e1 :: _ => e1 +:+ " " +:+ hd "" more
                | [] => hd "" more
                end in
  ∃ kitten trailing,
    resolve_kitten_aliases (pre ++ (k, e0 :: es) :: post) self
    = ([], Ret (set_action (mkKeyAction (func (action self)) [kitten; trailing]) self))
    ∧ Py.rstrip trailing = trailing
    ∧ (e0 ∉ post.*1 → kitten = e0 ∧ trailing = Py.rstrip merged)
    ∧ (e0 ∈ post.*1 →
       resolve_action post (mkKeyAction (func (action self)) [e0; merged])
       = ([], Ret (mkKeyAction (func (action self)) [kitten; trailing]))).
Proof.
  intros Hargs Hpre Hne merged.
  destruct (alias_loop_total post true e0 merged Hne)
    as (c' & kitten & rest & Hloop & Hcase).
  assert (Hc : c' = true) by (by destruct Hcase as [(-> & _)|[-> _]]).
  subst c'.
  exists kitten, (Py.rstrip rest). split; [|split; [|split]].
  - unfold resolve_kitten_aliases, resolve_action. rewrite Hargs.
    rewrite alias_loop_app by done. simpl alias_loop. rewrite String.eqb_refl.
    replace (match es with
             | [] => match more with [] => "" | r :: _ => r end
             | e1 :: _ => e1 +:+ " " +:+ match more with [] => "" | r :: _ => r end
             end) with merged by (by destruct more, es).
    rewrite Hloop. reflexivity.
  - apply rstrip_by_idempotent.
  - intros Hnot. rewrite alias_loop_skip in Hloop by done.
    by injection Hloop as <- <-.
  - intros Hin. unfold resolve_action. cbn [args func hd].
    rewrite (alias_loop_matched post false true) by done.
    rewrite Hloop. reflexivity.
Qed.

Lemma resolve_kitten_aliases_two_arguments_witness :
  resolve_kitten_aliases ([("z", [])] ++ ("a", "b" :: ["x"; "w"]) :: [("c", ["d"])])
    (mkMouseMapping 0 0 1 true (mkKeyAction "kitten" ["a"; "r "; "s"; "t"]))
  = ([], Ret (mkMouseMapping 0 0 1 true (mkKeyAction "kitten" ["b"; "x r"])))
  ∧ resolve_kitten_aliases ([] ++ ("a", "b" :: ["x"]) :: [("b", ["c"; "y"])])
      (mkKeyDefinition false (mkKeyAction "kitten" ["a"; "r "; "s"; "t"])
         (mkSingleKey 4 false 97) [])
    = ([], Ret (mkKeyDefinition false (mkKeyAction "kitten" ["c"; "y x r"])
                  (mkSingleKey 4 false 97) [])).
Proof.
  split.
  - destruct (resolve_kitten_aliases_two_arguments [("z", [])] [("c", ["d"])]
                "a" "b" ["x"; "w"] ["r "; "s"; "t"]
                (mkMouseMapping 0 0 1 true (mkKeyAction "kitten" ["a"; "r "; "s"; "t"])))
      as (kitten & trailing & Hr & _ & Hone & _).
    + reflexivity.
    + solve_not_elem.
    + repeat constructor. done.
    + destruct Hone as [-> ->]; [solve_not_elem|]. exact Hr.
  - destruct (resolve_kitten_aliases_two_arguments [] [("b", ["c"; "y"])]
                "a" "b" ["x"] ["r "; "s"; "t"]
                (mkKeyDefinition false (mkKeyAction "kitten" ["a"; "r "; "s"; "t"])
                   (mkSingleKey 4 false 97) []))
      as (kitten & trailing & Hr & _ & _ & Hchain).
    + reflexivity.
    + solve_not_elem.
    + repeat constructor. done.
    + specialize (Hchain ltac:(apply elem_of_cons; by left)).
      vm_compute in Hchain. injection Hchain as <- <-. exact Hr.
Defined.

(** ** Resolving the primary modifier *)

Lemma resolve_key_mods_spec_idempotent (placeholder kitty_mod mods : Z) :
  resolve_key_mods_spec placeholder kitty_mod
    (resolve_key_mods_spec placeholder kitty_mod mods)
  = resolve_key_mods_spec placeholder kitty_mod mods.
Proof.
  unfold resolve_key_mods_spec.
  destruct (Z.land mods placeholder =? 0) eqn:E; [by rewrite E|].
  destruct (Z.land (Z.lor _ _) placeholder =? 0); [done|].
  apply Z.bits_inj'. intros n Hn.
  rewrite !Z.lor_spec, !Z.land_spec, !Z.lor_spec, !Z.land_spec, !Z.lnot_spec by done.
  by destruct (Z.testbit mods n), (Z.testbit placeholder n), (Z.testbit kitty_mod n).
Qed.

(** After the substitution the placeholder bit is absent, unless the primary
    modifier holds it itself. *)
Lemma resolve_key_mods_spec_clears (placeholder kitty_mod mods : Z) :
  Z.land kitty_mod placeholder = 0 →
  Z.land (resolve_key_mods_spec placeholder kitty_mod mods) placeholder = 0.
Proof.
  intros Hkm. unfold resolve_key_mods_spec.
  destruct (Z.land mods placeholder =? 0) eqn:E; [by apply Z.eqb_eq|].
  apply Z.bits_inj'. intros n Hn.
  assert (Hb := f_equal (λ z, Z.testbit z n) Hkm). simpl in Hb.
  rewrite Z.land_spec, Z.bits_0 in Hb.
  rewrite Z.land_spec, Z.lor_spec, Z.land_spec, Z.lnot_spec, Z.bits_0 by done.
  by destruct (Z.testbit mods n), (Z.testbit placeholder n), (Z.testbit kitty_mod n).
Qed.

(** C6.  With the bit substitution the specification describes for
    [resolve_key_mods], [resolve] is idempotent on a [KeyDefinition] and on
    a [MouseMapping]: a second call with the same primary modifier changes
    nothing, whatever the placeholder bit and the primary modifier are. *)
Theorem resolve_idempotent (placeholder kitty_mod : Z)
    (d : KeyDefinition) (mm : MouseMapping) :
  KeyDefinition_resolve (resolve_key_mods_spec placeholder) kitty_mod
    (KeyDefinition_resolve (resolve_key_mods_spec placeholder) kitty_mod d)
  = KeyDefinition_resolve (resolve_key_mods_spec placeholder) kitty_mod d
  ∧ MouseMapping_resolve (resolve_key_mods_spec placeholder) kitty_mod
      (MouseMapping_resolve (resolve_key_mods_spec placeholder) kitty_mod mm)
    = MouseMapping_resolve (resolve_key_mods_spec placeholder) kitty_mod mm.
Proof.
  split.
  - unfold KeyDefinition_resolve. simpl. f_equal.
    + by rewrite resolve_key_mods_spec_idempotent.
    + rewrite <- list_fmap_compose. apply list_fmap_ext. intros i k _. simpl.
      by rewrite resolve_key_mods_spec_idempotent.
  - unfold MouseMapping_resolve. simpl.
    by rewrite resolve_key_mods_spec_idempotent.
Qed.

(** C7.  [resolve] rewrites modifier masks and nothing else.  On a
    [KeyDefinition] the key code and the native flag of the head trigger
    and of every tail trigger, the action, [is_sequence], and the number and
    order of the tail triggers stay as they were; on a [MouseMapping] the
    button, [repeat_count], [grabbed] and the action do.  This holds for any
    [resolve_key_mods]. *)
Theorem resolve_frame (resolve_key_mods : Z → Z → Z) (kitty_mod : Z)
    (d : KeyDefinition) (mm : MouseMapping) :
  let d' := KeyDefinition_resolve resolve_key_mods kitty_mod d in
  let mm' := MouseMapping_resolve resolve_key_mods kitty_mod mm in
  (is_sequence d' = is_sequence d
   ∧ action d' = action d
   ∧ sk_key (trigger d') = sk_key (trigger d)
   ∧ sk_is_native (trigger d') = sk_is_native (trigger d)
   ∧ length (rest d') = length (rest d)
   ∧ sk_key <$> rest d' = sk_key <$> rest d
   ∧ sk_is_native <$> rest d' = sk_is_native <$> rest d)
  ∧ (sk_mods (trigger d') = resolve_key_mods kitty_mod (sk_mods (trigger d))
     ∧ sk_mods <$> rest d' = resolve_key_mods kitty_mod <$> (sk_mods <$> rest d))
  ∧ (button mm' = button mm
     ∧ repeat_count mm' = repeat_count mm
     ∧ grabbed mm' = grabbed mm
     ∧ action mm' = action mm
     ∧ mods mm' = resolve_key_mods kitty_mod (mods mm)).
Proof.
  intros d' mm'. subst d' mm'. unfold KeyDefinition_resolve, MouseMapping_resolve. simpl.
  repeat split.
  - apply length_fmap.
  - rewrite <- list_fmap_compose. by apply list_fmap_ext.
  - rewrite <- list_fmap_compose. by apply list_fmap_ext.
  - rewrite <- !list_fmap_compose. by apply list_fmap_ext.
Qed.

(** ** Key sequences *)

Lemma bind_snd {A B} (m : M A) (k : A → M B) (a : A) :
  m.2 = Ret a → (m ≫= k).2 = (k a).2.
Proof. destruct m as [l o]. intros Ho. simpl in Ho. subst o. by rewrite bind_ret_M. Qed.

Lemma try_except_snd {A B} (m : M A) (h : exn → M B) (k : A → M B) (a : A) :
  m.2 = Ret a → (try_except m h k).2 = (k a).2.
Proof.
  destruct m as [l o]. intros Ho. simpl in Ho. subst o.
  unfold try_except. by destruct (k a).
Qed.

Section SequenceFacts.

Variable defines : gmap string Z.
Variable cka fka : gmap string string.
Variable lf : string → bool → option Z.
Variable args_funcs : gmap string arg_parser.

(** Modifiers that do not resolve, in a shortcut that has a modifier
    section, are reported as [InvalidMods]. *)
Lemma parse_shortcut_invalid_mods (sc : string) :
  let sc' := if Py.endswith "+" sc && (1 <? Py.len sc)
             then Py.drop_last sc +:+ "plus" else sc in
  (1 < length (Py.split "+" sc'))%nat →
  (parse_mods defines (removelast (Py.split "+" sc')) sc').2 = Ret None →
  raises (parse_shortcut defines cka fka lf sc) (InvalidMods "Invalid shortcut").
Proof.
  intros sc'. subst sc'. unfold raises, parse_shortcut. cbv zeta.
  match goal with |- context [Py.split "+" ?X] => generalize X; intros sc' end.
  intros Hlen Hmods.
  assert ((1 <? Z.of_nat (length (Py.split "+" sc'))) = true) as ->
    by (apply Z.ltb_lt; lia).
  destruct (parse_mods _ _ _) as [l o]. simpl in Hmods. subst o.
  rewrite bind_ret_M. reflexivity.
Qed.

Lemma checked_shortcut_fails (sc part : string) :
  segment_fails defines cka fka lf part → (checked_shortcut defines cka fka lf sc part).2 = Ret None.
Proof.
  unfold segment_fails, raises, checked_shortcut.
  destruct (parse_shortcut _ _ _ _ _) as [l o]. simpl.
  intros [->|(k & -> & Hk)]; unfold try_except; [done|].
  by rewrite Hk.
Qed.

Lemma parse_sequence_fails (sc : string) (parts : list string)
    (trigger : option SingleKey) (restl : list SingleKey) (part : string) :
  part ∈ parts → segment_fails defines cka fka lf part →
  (parse_sequence defines cka fka lf sc parts trigger restl).2 = Ret None.
Proof.
  intros Hin Hbad. revert trigger restl.
  induction parts as [|p parts IH]; intros trigger restl.
  - by apply elem_of_nil in Hin.
  - simpl. destruct (checked_shortcut_returns defines cka fka lf sc p) as [r Hr].
    rewrite (bind_snd _ _ r Hr). destruct r as [k|]; [|done].
    apply elem_of_cons in Hin as [->|Hin].
    + rewrite (checked_shortcut_fails sc p Hbad) in Hr. discriminate Hr.
    + destruct trigger; by apply IH.
Qed.

Lemma checked_shortcut_some (sc part : string) (k : SingleKey) :
  (checked_shortcut defines cka fka lf sc part).2 = Ret (Some k) →
  (parse_shortcut defines cka fka lf part).2 = Ret k ∧ sk_key k ≠ 0.
Proof.
  unfold checked_shortcut.
  destruct (parse_shortcut _ _ _ _ _) as [l [k'|e]]; unfold try_except.
  - destruct (sk_key k' =? 0) eqn:E; simpl; intros [= <-].
    split; [done|]. by apply Z.eqb_neq.
  - destruct e; simpl; discriminate.
Qed.

(** A loop that runs to its end has parsed every segment: the triggers it
    leaves are, in order, those of all the segments. *)
Lemma parse_sequence_some (sc : string) (parts : list string)
    (trigger : option SingleKey) (restl : list SingleKey) (vars : shortcut_vars) :
  (parse_sequence defines cka fka lf sc parts trigger restl).2 = Ret (Some vars) →
  ∃ ks, Forall2 (λ part k, (parse_shortcut defines cka fka lf part).2 = Ret k
                           ∧ sk_key k ≠ 0) parts ks
        ∧ vars = match trigger, ks with
                 | Some t, _ => SeqVars (Some t) (restl ++ ks)
                 | None, k :: ks' => SeqVars (Some k) (restl ++ ks')
                 | None, [] => SeqVars None restl
                 end.
Proof.
  revert trigger restl.
  induction parts as [|p parts IH]; intros trigger restl; simpl.
  - intros [= <-]. exists []. split; [constructor|].
    destruct trigger; by rewrite ?app_nil_r.
  - destruct (checked_shortcut_returns defines cka fka lf sc p) as [r Hr].
    rewrite (bind_snd _ _ r Hr). destruct r as [k|]; [|discriminate].
    apply checked_shortcut_some in Hr.
    destruct trigger as [t|]; intros Hs; apply IH in Hs as (ks & Hks & ->);
      exists (k :: ks); (split; [by constructor|]).
    + by rewrite <- app_assoc.
    + done.
Qed.

(** What [parse_map] yields for a sequence holds a trigger for every
    segment, each with a key code other than 0. *)
Lemma parse_map_sequence_complete (val sc0 action0 : string)
    (l : list KeyDefinition) (d : KeyDefinition) :
  Py.split_ws 1 val = [sc0; action0] →
  Py.contains sequence_sep (Py.strip_char sequence_sep (Py.strip sc0)) = true →
  (parse_map defines cka fka lf args_funcs val).2 = Ret l →
  d ∈ l →
  l = [d] ∧ is_sequence d = true
  ∧ Forall2 (λ part k, (parse_shortcut defines cka fka lf part).2 = Ret k ∧ sk_key k ≠ 0)
      (Py.split sequence_sep (Py.strip_char sequence_sep (Py.strip sc0)))
      (trigger d :: rest d).
Proof.
  intros Hsplit Hseq. unfold parse_map. rewrite Hsplit. cbv zeta beta iota.
  destruct (_ || _); [intros [= <-] Hd; by apply elem_of_nil in Hd|].
  rewrite Hseq.
  destruct (parse_sequence_returns defines cka fka lf
              (Py.strip_char sequence_sep (Py.strip sc0))
              (Py.split sequence_sep (Py.strip_char sequence_sep (Py.strip sc0)))
              None []) as [r Hr].
  rewrite (bind_snd _ _ r Hr).
  destruct r as [vars|]; [|intros [= <-] Hd; by apply elem_of_nil in Hd].
  apply parse_sequence_some in Hr as (ks & Hks & ->).
  destruct (parse_key_action args_funcs (Py.strip action0)) as [la [[pa|]|e]];
    unfold try_except; simpl;
    try (intros [= <-] Hd; by apply elem_of_nil in Hd).
  destruct ks as [|k ks]; simpl; intros [= <-] Hd.
  - by apply elem_of_nil in Hd.
  - apply list_elem_of_singleton in Hd as ->. split; [done|]. split; [done|].
    unfold KeyDefinition_init. simpl. by destruct k.
Qed.

End SequenceFacts.


(** C5.  In a [map] directive whose shortcut is a sequence, one segment
    whose modifiers do not resolve or whose key code is 0 makes [parse_map]
    yield nothing for the line: no [KeyDefinition] with only part of the
    sequence is produced. *)
Theorem parse_map_sequence_all_or_nothing (defines : gmap string Z)
    (cka fka : gmap string string) (lf : string → bool → option Z)
    (args_funcs : gmap string arg_parser) (val sc0 action0 part : string) :
  Py.split_ws 1 val = [sc0; action0] →
  Py.contains sequence_sep (Py.strip_char sequence_sep (Py.strip sc0)) = true →
  part ∈ Py.split sequence_sep (Py.strip_char sequence_sep (Py.strip sc0)) →
  segment_fails defines cka fka lf part →
  (parse_map defines cka fka lf args_funcs val).2 = Ret [].
Proof.
  intros Hsplit Hseq Hin Hbad. unfold parse_map. rewrite Hsplit. cbv zeta beta iota.
  destruct (_ || _); [done|]. rewrite Hseq.
  by rewrite (bind_snd _ _ None (parse_sequence_fails defines cka fka lf _ _ _ _ part Hin Hbad)).
Qed.

Lemma parse_map_sequence_all_or_nothing_witness :
  (sample_parse_map "ctrl+a>ctrl+zzz>b new_tab").2 = Ret [].
Proof.
  refine (parse_map_sequence_all_or_nothing sample_defines sample_character_aliases
            sample_functional_aliases sample_lookup sample_args_funcs
            "ctrl+a>ctrl+zzz>b new_tab" "ctrl+a>ctrl+zzz>b" "new_tab" "ctrl+zzz" _ _ _ _).
  - reflexivity.
  - reflexivity.
  - apply elem_of_cons. right. apply elem_of_cons. by left.
  - right. exists (mkSingleKey 4 false 0). split; reflexivity.
Defined.

(** ** Mouse mappings *)

(** C8.  A valid [mouse_map] directive (four fields, a button and modifiers
    that resolve, a known event type, an action that parses) yields one
    [MouseMapping] per requested mode.  When the modes field names both
    [grabbed] and [ungrabbed] there are exactly two records, which share
    button, modifier mask, repeat count and action and differ in the
    [grabbed] flag only; their order is that of the iteration over the
    set.  When it names one mode there is exactly one record. *)
Theorem parse_mouse_map_fan_out (defines : gmap string Z)
    (args_funcs : gmap string arg_parser)
    (val xbutton event modes action obutton : string)
    (mods button count : Z) (paction : KeyAction) :
  Py.split_ws 3 val = [xbutton; event; modes; action] →
  (length (Py.split "+" xbutton) = 1%nat ∧ obutton = Py.lower xbutton ∧ mods = 0)
  ∨ ((1 < length (Py.split "+" xbutton))%nat
     ∧ obutton = Py.lower (List.last (Py.split "+" xbutton) "")
     ∧ (parse_mods defines (removelast (Py.split "+" xbutton)) obutton).2
       = Ret (Some mods)) →
  defines !! ("GLFW_MOUSE_BUTTON_"
              +:+ Py.drop_first (default obutton (mouse_button_aliases !! obutton)))
  = Some button →
  mouse_event_counts !! Py.lower event = Some count →
  (parse_key_action args_funcs action).2 = Ret (Some paction) →
  let specified_modes : gset string := list_to_set (Py.split "," (Py.lower modes)) in
  let mapping (g : bool) := mkMouseMapping button mods count g paction in
  ∃ l, (parse_mouse_map defines args_funcs val).2 = Ret l
       ∧ (specified_modes = {["grabbed"; "ungrabbed"]} →
          l ≡ₚ [mapping true; mapping false])
       ∧ (specified_modes = {["grabbed"]} → l = [mapping true])
       ∧ (specified_modes = {["ungrabbed"]} → l = [mapping false]).
Proof.
  intros Hsplit Hmods Hbutton Hcount Haction specified_modes mapping.
  unfold parse_mouse_map. rewrite Hsplit. cbv zeta beta iota.
  match goal with |- context [?m ≫= _] =>
    assert (Hr : m.2 = Ret (Some (obutton, mods))) end.
  { destruct Hmods as [(Hlen & -> & ->)|(Hlen & -> & Hm)].
    - by rewrite Hlen.
    - assert ((1 <? Z.of_nat (length (Py.split "+" xbutton))) = true) as ->
        by (apply Z.ltb_lt; lia).
      by rewrite (bind_snd _ _ _ Hm). }
  rewrite (bind_snd _ _ _ Hr). cbv beta iota. rewrite Hbutton, Hcount.
  fold specified_modes.
  destruct (decide (specified_modes ∖ {["grabbed"; "ungrabbed"]} = ∅)) as [Hsub|Hsub].
  - rewrite (try_except_snd _ _ _ _ Haction). eexists. split; [reflexivity|].
    fold mapping. split; [|split]; intros ->.
    + rewrite elements_union_singleton, elements_singleton by set_solver.
      reflexivity.
    + by rewrite elements_singleton.
    + by rewrite elements_singleton.
  - exists []. split; [reflexivity|].
    split; [|split]; intros Heq; exfalso; apply Hsub; rewrite Heq; set_solver.
Qed.

Lemma parse_mouse_map_fan_out_witness :
  ∃ l, (sample_parse_mouse_map "ctrl+shift+left press Grabbed,ungrabbed close_tab").2 = Ret l
       ∧ l ≡ₚ [mkMouseMapping 0 5 1 true (mkKeyAction "close_tab" []);
               mkMouseMapping 0 5 1 false (mkKeyAction "close_tab" [])].
Proof.
  destruct (parse_mouse_map_fan_out sample_defines sample_args_funcs
              "ctrl+shift+left press Grabbed,ungrabbed close_tab"
              "ctrl+shift+left" "press" "Grabbed,ungrabbed" "close_tab" "left"
              5 0 1 (mkKeyAction "close_tab" [])) as (l & Hl & Hboth & _).
  - reflexivity.
  - right. split; [simpl; lia|]. split; reflexivity.
  - reflexivity.
  - reflexivity.
  - reflexivity.
  - exists l. split; [exact Hl|]. apply Hboth. reflexivity.
Defined.

(** ** The examples of the specification, on the sample tables *)

Example map_sequence_example :
  sample_parse_map "ctrl+a>ctrl+b new_tab"
  = ([], Ret [mkKeyDefinition true (mkKeyAction "new_tab" [])
                (mkSingleKey 4 false 97) [mkSingleKey 4 false 98]]).
Proof. reflexivity. Qed.

Example mouse_click_example :
  sample_parse_mouse_map "left click ungrabbed close_tab"
  = ([], Ret [mkMouseMapping 0 0 (-2) false (mkKeyAction "close_tab" [])]).
Proof. reflexivity. Qed.

Example mouse_both_modes_example :
  ∃ l, sample_parse_mouse_map "left press grabbed,ungrabbed close_tab" = ([], Ret l)
       ∧ l ≡ₚ [mkMouseMapping 0 0 1 true (mkKeyAction "close_tab" []);
               mkMouseMapping 0 0 1 false (mkKeyAction "close_tab" [])].
Proof. eexists. split; reflexivity. Qed.

Example native_key_example :
  sample_parse_shortcut "0x41" = ([], Ret (mkSingleKey 0 true 65)).
Proof. reflexivity. Qed.

Example plus_key_example :
  sample_parse_shortcut "ctrl++" = ([], Ret (mkSingleKey 4 false 43)).
Proof. reflexivity. Qed.

Example mods_order_example :
  sample_parse_mods ["ctrl"; "shift"] "ctrl+shift+a"
  = sample_parse_mods ["shift"; "ctrl"] "ctrl+shift+a".
Proof. reflexivity. Qed.

Example unknown_modifier_example :
  sample_parse_mods ["ctrl"; "foo"] "ctrl+foo+a"
  = (["Shortcut: ctrl+foo+a has unknown modifier, ignoring"], Ret None).
Proof. reflexivity. Qed.

Example primary_modifier_example :
  ∃ k, sample_parse_shortcut "kitty_mod+enter" = ([], Ret k)
       ∧ sk_mods k = 256
       ∧ resolve_key_mods_spec 256 5 (sk_mods k) = 5.
Proof. eexists. repeat split; reflexivity. Qed.

Example kitten_action_example :
  sample_parse_key_action "kitten hints --type path"
  = ([], Ret (Some (mkKeyAction "kitten" ["hints"; "--type path"]))).
Proof. reflexivity. Qed.

Example kitten_alias_example :
  kitten_alias "hints hints --hints-offset=0" = [("hints", ["hints"; "--hints-offset=0"])].
Proof. reflexivity. Qed.

Example map_sequence_invalid_mods_example :
  sample_parse_map "ctrl+a>foo+b new_tab"
  = (["Shortcut: foo+b has unknown modifier, ignoring"], Ret []).
Proof. reflexivity. Qed.

Example map_blank_example :
  sample_parse_map "" = ([], Ret []) ∧ sample_parse_map "ctrl+a   " = ([], Ret []).
Proof. split; reflexivity. Qed.

Example kitten_alias_chain_example :
  resolve_kitten_aliases [("a", ["b"; "x"]); ("b", ["c"; "y"])]
    (mkMouseMapping 0 0 1 true (mkKeyAction "kitten" ["a"; "r"]))
  = ([], Ret (mkMouseMapping 0 0 1 true (mkKeyAction "kitten" ["c"; "y x r"]))).
Proof. reflexivity. Qed.

(** * Further properties of the file *)

(** ** More facts on the string primitives *)

Lemma lstrip_by_length (p : ascii → bool) (s : string) :
  (String.length (Py.lstrip_by p s) ≤ String.length s)%nat.
Proof. induction s as [|c s IH]; simpl; [lia|]. destruct (p c); simpl; lia. Qed.

Lemma lstrip_by_all (p q : ascii → bool) (s : string) :
  Py.all_chars q s = true → Py.all_chars q (Py.lstrip_by p s) = true.
Proof.
  induction s as [|c s IH]; simpl; [done|].
  intros [Hc Hs]%andb_prop. destruct (p c); [by apply IH|]. simpl. by rewrite Hc, Hs.
Qed.

Lemma rstrip_by_all (p q : ascii → bool) (s : string) :
  Py.all_chars q s = true → Py.all_chars q (Py.rstrip_by p s) = true.
Proof.
  induction s as [|c s IH]; simpl; [done|].
  intros [Hc Hs]%andb_prop. specialize (IH Hs).
  destruct (Py.rstrip_by p s) as [|c' r]; [destruct (p c)|]; simpl in *; by rewrite ?Hc, ?IH.
Qed.

(** What [strip] returns has no white space left to strip. *)
Lemma strip_idempotent (s : string) : Py.strip (Py.strip s) = Py.strip s.
Proof.
  unfold Py.strip at 1. unfold Py.strip_by.
  fold (Py.lstrip (Py.strip s)). rewrite lstrip_strip.
  unfold Py.strip, Py.strip_by. apply rstrip_by_idempotent.
Qed.

Lemma take_word_spec (s w r : string) :
  Py.take_word s = (w, r) →
  s = w +:+ r
  ∧ Py.all_chars (λ c, negb (Py.isspace c)) w = true
  ∧ (String.length r ≤ String.length s)%nat.
Proof.
  revert w r. induction s as [|c s IH]; intros w r; simpl.
  - intros [= <- <-]. done.
  - destruct (Py.isspace c) eqn:Hc.
    + intros [= <- <-]. simpl. split; [done|]. split; [done|lia].
    + destruct (Py.take_word s) as [w' r'] eqn:E. intros [= <- <-].
      destruct (IH w' r' eq_refl) as (-> & Hw & Hl).
      split; [done|]. split; [simpl; by rewrite Hc, Hw|simpl; lia].
Qed.

Lemma take_word_all (q : ascii → bool) (s w r : string) :
  Py.take_word s = (w, r) →
  Py.all_chars q s = true → Py.all_chars q w = true ∧ Py.all_chars q r = true.
Proof.
  revert w r. induction s as [|c s IH]; intros w r; simpl.
  - by intros [= <- <-].
  - intros Ht [Hc Hs]%andb_prop. destruct (Py.isspace c).
    + injection Ht as <- <-. simpl. by rewrite Hc, Hs.
    + destruct (Py.take_word s) as [w' r'] eqn:E. injection Ht as <- <-.
      destruct (IH w' r' eq_refl Hs) as [Hw Hr]. simpl. by rewrite Hc, Hw, Hr.
Qed.

(** A word cut after leading white space is dropped is not empty, and what
    follows it is shorter. *)
Lemma take_word_lstrip (s : string) (c : ascii) (t w r : string) :
  Py.lstrip s = String c t → Py.take_word (String c t) = (w, r) →
  w ≠ "" ∧ (String.length r < String.length (String c t))%nat.
Proof.
  intros Hs Ht. apply lstrip_by_head in Hs. simpl in Ht. rewrite Hs in Ht.
  destruct (Py.take_word t) as [w' r'] eqn:E. injection Ht as <- <-.
  apply take_word_spec in E as (_ & _ & Hl). split; [done|simpl; lia].
Qed.

Lemma split_ws_nil_eq (n : nat) (s : string) :
  Py.lstrip s = "" → Py.split_ws n s = [].
Proof. intros El. destruct n; simpl; by rewrite El. Qed.

Lemma split_ws_O_cons (s : string) (c : ascii) (t : string) :
  Py.lstrip s = String c t → Py.split_ws 0 s = [String c t].
Proof. intros El. simpl. by rewrite El. Qed.

Lemma split_ws_S_cons (n : nat) (s : string) (c : ascii) (t w r : string) :
  Py.lstrip s = String c t → Py.take_word (String c t) = (w, r) →
  Py.split_ws (S n) s = w :: Py.split_ws n r.
Proof.
  intros El Et. cbn [Py.split_ws]. rewrite El. cbv beta iota.
  change (match Py.take_word (String c t) with (w0, r0) => w0 :: Py.split_ws n r0 end
          = w :: Py.split_ws n r).
  by rewrite Et.
Qed.

(** The fields of [split_ws] are never empty, there are at most
    [maxsplit + 1] of them, and they keep any property the characters of the
    string have. *)
Lemma split_ws_fields (q : ascii → bool) (n : nat) (s : string) :
  Forall (λ w, w ≠ "") (Py.split_ws n s)
  ∧ (length (Py.split_ws n s) ≤ S n)%nat
  ∧ (Py.all_chars q s = true → Forall (λ w, Py.all_chars q w = true) (Py.split_ws n s)).
Proof.
  revert s. induction n as [|n IH]; intros s;
    pose proof (lstrip_by_all Py.isspace q s) as Hq; fold (Py.lstrip s) in Hq;
    destruct (Py.lstrip s) as [|c t] eqn:El;
    try (rewrite (split_ws_nil_eq _ s El);
         split; [constructor|]; split; [simpl; lia|constructor]).
  - rewrite (split_ws_O_cons s c t El).
    split; [by repeat constructor|]. split; [simpl; lia|].
    intros Hs. repeat constructor. by apply Hq.
  - destruct (Py.take_word (String c t)) as [w r] eqn:Et.
    rewrite (split_ws_S_cons n s c t w r El Et).
    destruct (take_word_lstrip s c t w r El Et) as [Hw _].
    destruct (IH r) as (Hne & Hlen & Hall).
    split; [by constructor|]. split; [simpl; lia|].
    intros Hs. destruct (take_word_all q _ _ _ Et (Hq Hs)) as [Hqw Hqr].
    constructor; [done|by apply Hall].
Qed.

(** With as many cuts allowed as the string has bytes, no field holds white
    space: [split_all] is the split without a limit. *)
Lemma split_ws_no_space (n : nat) (s : string) :
  (String.length s ≤ n)%nat →
  Forall (λ w, Py.all_chars (λ c, negb (Py.isspace c)) w = true) (Py.split_ws n s).
Proof.
  revert s. induction n as [|n IH]; intros s Hn.
  - destruct s; [|simpl in Hn; lia]. constructor.
  - pose proof (lstrip_by_length Py.isspace s) as Hl. fold (Py.lstrip s) in Hl.
    destruct (Py.lstrip s) as [|c t] eqn:El;
      [rewrite (split_ws_nil_eq _ s El); constructor|].
    destruct (Py.take_word (String c t)) as [w r] eqn:Et.
    rewrite (split_ws_S_cons n s c t w r El Et).
    destruct (take_word_lstrip s c t w r El Et) as [_ Hr].
    apply take_word_spec in Et as (_ & Hw & _).
    constructor; [done|]. apply IH. simpl in Hr, Hl. lia.
Qed.

Lemma split_all_words (s : string) :
  Forall (λ w, w ≠ "" ∧ Py.all_chars (λ c, negb (Py.isspace c)) w = true) (Py.split_all s).
Proof.
  unfold Py.split_all. apply Forall_and. split.
  - apply (split_ws_fields (λ _, true)).
  - by apply split_ws_no_space.
Qed.

Lemma lower_char_idempotent (c : ascii) :
  Py.lower_char (Py.lower_char c) = Py.lower_char c.
Proof. by destruct c as [[] [] [] [] [] [] [] []]. Qed.

Lemma lower_idempotent (s : string) : Py.lower (Py.lower s) = Py.lower s.
Proof.
  unfold Py.lower. induction s as [|c s IH]; simpl; [done|].
  by rewrite lower_char_idempotent, IH.
Qed.

Lemma map_chars_all (f : ascii → ascii) (q : ascii → bool) (s : string) :
  (∀ c, q c = true → q (f c) = true) →
  Py.all_chars q s = true → Py.all_chars q (Py.map_chars f s) = true.
Proof.
  intros Hf. induction s as [|c s IH]; simpl; [done|].
  intros [Hc Hs]%andb_prop. by rewrite (Hf c Hc), IH.
Qed.

Lemma partition_spec (sep : ascii) (s a b : string) :
  Py.partition sep s = (a, b) →
  Py.all_chars (λ c, negb (bool_decide (c = sep))) a = true
  ∧ (s = a +:+ String sep b ∨ (s = a ∧ b = "")).
Proof.
  revert a b. induction s as [|c s IH]; intros a b; simpl.
  - intros [= <- <-]. split; [done|]. by right.
  - destruct (bool_decide (c = sep)) eqn:Hc.
    + intros [= <- <-]. apply bool_decide_eq_true in Hc as ->.
      split; [done|]. by left.
    + destruct (Py.partition sep s) as [a' b'] eqn:E. intros [= <- <-].
      destruct (IH a' b' eq_refl) as [Ha Hs]. simpl. rewrite Hc. split; [done|].
      destruct Hs as [->|[-> ->]]; [by left|by right].
Qed.

(** ** Modifier resolution, continued *)

Section ModifierFacts.

Variable defines : gmap string Z.

(** The bits of one modifier token, when the table binds its name. *)
Abbreviation mod_bits t := (defines !! ("GLFW_MOD_" +:+ map_mod (Py.upper t))).

Lemma parse_mods_from_cons_some (mods bits : Z) (m : string) (parts : list string)
    (sc : string) :
  mod_bits m = Some bits →
  parse_mods_from defines mods (m :: parts) sc
  = parse_mods_from defines (Z.lor mods bits) parts sc.
Proof. intros Hm. simpl. by rewrite Hm. Qed.

Lemma parse_mods_from_cons_none (mods : Z) (m : string) (parts : list string)
    (sc : string) :
  mod_bits m = None →
  ∃ log, parse_mods_from defines mods (m :: parts) sc = (log, Ret None)
         ∧ (length log ≤ 1)%nat.
Proof.
  intros Hm. simpl. rewrite Hm. destruct (negb _).
  - eexists. split; [reflexivity|simpl; lia].
  - exists []. split; [reflexivity|simpl; lia].
Qed.

Lemma parse_mods_from_outcome (mods : Z) (parts : list string) (sc : string) :
  ∃ log r,
    parse_mods_from defines mods parts sc = (log, Ret r)
    ∧ (length log ≤ 1)%nat
    ∧ (is_Some r ↔ Forall (λ t, is_Some (mod_bits t)) parts)
    ∧ (∀ m, r = Some m →
         log = []
         ∧ (∀ n, Z.testbit m n = true ↔
                 Z.testbit mods n = true
                 ∨ ∃ t bits, t ∈ parts ∧ mod_bits t = Some bits
                             ∧ Z.testbit bits n = true)).
Proof.
  revert mods. induction parts as [|t parts IH]; intros mods.
  - exists [], (Some mods). split; [done|]. split; [simpl; lia|].
    split; [split; [constructor|by eexists]|].
    intros m [= <-]. split; [done|]. intros n. split; [by left|].
    intros [H|(t & bits & Ht & _)]; [done|]. by apply elem_of_nil in Ht.
  - destruct (mod_bits t) as [bits|] eqn:Ht.
    + rewrite (parse_mods_from_cons_some mods bits t parts sc Ht).
      destruct (IH (Z.lor mods bits)) as (log & r & -> & Hlen & Hsome & Hmask).
      exists log, r. split; [done|]. split; [done|]. split.
      * rewrite Hsome. split; [intros H; constructor; [by eexists|done]|].
        by intros [_ H]%Forall_cons.
      * intros m Hr. destruct (Hmask m Hr) as [-> Hbits]. split; [done|].
        intros n. rewrite Hbits, Z.lor_spec, orb_true_iff. split.
        -- intros [[H|H]|(t' & b' & Hin & Hb & Hn)].
           ++ by left.
           ++ right. exists t, bits. split; [apply elem_of_cons; by left|done].
           ++ right. exists t', b'. split; [apply elem_of_cons; by right|done].
        -- intros [H|(t' & b' & Hin & Hb & Hn)]; [by left; left|].
           apply elem_of_cons in Hin as [->|Hin].
           ++ left. right. congruence.
           ++ right. by exists t', b'.
    + destruct (parse_mods_from_cons_none mods t parts sc Ht) as (log & -> & Hlen).
      exists log, None. split; [done|]. split; [done|]. split.
      * split; [by intros [? ?]|]. intros [[? H] _]%Forall_cons. congruence.
      * by intros m.
Qed.

(** X1.  [parse_mods] logs at most one warning and returns a mask exactly
    when every token resolves; it then has logged nothing, and the mask
    holds the bits of the tokens and no other bit. *)
Theorem parse_mods_outcome (parts : list string) (sc : string) :
  ∃ log r,
    parse_mods defines parts sc = (log, Ret r)
    ∧ (length log ≤ 1)%nat
    ∧ (is_Some r ↔ Forall (λ t, is_Some (mod_bits t)) parts)
    ∧ (∀ m, r = Some m →
         log = []
         ∧ (∀ n, Z.testbit m n = true ↔
                 ∃ t bits, t ∈ parts ∧ mod_bits t = Some bits
                           ∧ Z.testbit bits n = true)).
Proof.
  destruct (parse_mods_from_outcome 0 parts sc) as (log & r & Hp & Hlen & Hsome & Hmask).
  exists log, r. split; [done|]. split; [done|]. split; [done|].
  intros m Hr. destruct (Hmask m Hr) as [-> Hbits]. split; [done|].
  intros n. rewrite Hbits, Z.bits_0. split; [by intros [?|?]|by right].
Qed.

(** The shortcut text only goes into the warning. *)
Lemma parse_mods_from_text (mods : Z) (parts : list string) (sc sc' : string) :
  (parse_mods_from defines mods parts sc).2 = (parse_mods_from defines mods parts sc').2.
Proof.
  revert mods. induction parts as [|t parts IH]; intros mods; [done|].
  destruct (mod_bits t) as [bits|] eqn:Ht.
  - rewrite !(parse_mods_from_cons_some _ bits) by done. apply IH.
  - destruct (parse_mods_from_cons_none mods t parts sc Ht) as (? & -> & _).
    by destruct (parse_mods_from_cons_none mods t parts sc' Ht) as (? & -> & _).
Qed.

Lemma parse_mods_from_permutation (mods : Z) (parts parts' : list string) (sc : string) :
  parts ≡ₚ parts' →
  (parse_mods_from defines mods parts sc).2 = (parse_mods_from defines mods parts' sc).2.
Proof.
  intros Hp. revert mods.
  induction Hp as [|t l l' _ IH|t u l|l l' l'' _ IH1 _ IH2]; intros mods.
  - done.
  - destruct (mod_bits t) as [bits|] eqn:Ht.
    + rewrite !(parse_mods_from_cons_some _ bits) by done. apply IH.
    + destruct (parse_mods_from_cons_none mods t l sc Ht) as (? & -> & _).
      by destruct (parse_mods_from_cons_none mods t l' sc Ht) as (? & -> & _).
  - destruct (mod_bits t) as [bt|] eqn:Ht; destruct (mod_bits u) as [bu|] eqn:Hu.
    + rewrite (parse_mods_from_cons_some _ bu), (parse_mods_from_cons_some _ bt),
        (parse_mods_from_cons_some _ bt), (parse_mods_from_cons_some _ bu) by done.
      by rewrite <- !Z.lor_assoc, (Z.lor_comm bt bu).
    + rewrite (parse_mods_from_cons_some mods bt t (u :: l) sc Ht).
      destruct (parse_mods_from_cons_none mods u (t :: l) sc Hu) as (? & -> & _).
      by destruct (parse_mods_from_cons_none (Z.lor mods bt) u l sc Hu) as (? & -> & _).
    + rewrite (parse_mods_from_cons_some mods bu u (t :: l) sc Hu).
      destruct (parse_mods_from_cons_none mods t (u :: l) sc Ht) as (? & -> & _).
      by destruct (parse_mods_from_cons_none (Z.lor mods bu) t l sc Ht) as (? & -> & _).
    + destruct (parse_mods_from_cons_none mods u (t :: l) sc Hu) as (? & -> & _).
      by destruct (parse_mods_from_cons_none mods t (u :: l) sc Ht) as (? & -> & _).
  - rewrite (IH1 mods). apply IH2.
Qed.

(** X2.  Modifier resolution does not depend on the order of the tokens:
    two token lists that are permutations of each other give the same
    result, a mask or the failure. *)
Theorem parse_mods_permutation (parts parts' : list string) (sc : string) :
  parts ≡ₚ parts' →
  (parse_mods defines parts sc).2 = (parse_mods defines parts' sc).2.
Proof. apply parse_mods_from_permutation. Qed.

End ModifierFacts.

Lemma parse_mods_permutation_witness :
  (parse_mods sample_defines ["ctrl"; "shift"; "alt"] "x").2
  = (parse_mods sample_defines ["alt"; "ctrl"; "shift"] "x").2.
Proof.
  apply (parse_mods_permutation sample_defines ["ctrl"; "shift"; "alt"]
           ["alt"; "ctrl"; "shift"] "x").
  exact (perm_trans (perm_skip "ctrl" (perm_swap "alt" "shift" []))
           (perm_swap "alt" "ctrl" ["shift"])).
Defined.

(** ** Single triggers, continued *)

Lemma append_cons (a : ascii) (s t : string) : String a s +:+ t = String a (s +:+ t).
Proof. reflexivity. Qed.

Lemma append_nil_l (t : string) : "" +:+ t = t.
Proof. reflexivity. Qed.

Lemma append_length (s t : string) :
  String.length (s +:+ t) = (String.length s + String.length t)%nat.
Proof. induction s as [|a s IH]; [done|]. rewrite append_cons. simpl. by rewrite IH. Qed.

Lemma append_eq_nil (s t : string) : s +:+ t = "" → s = "" ∧ t = "".
Proof. destruct s; [by rewrite append_nil_l|]. by rewrite append_cons. Qed.

Lemma endswith_app (c : ascii) (s t : string) :
  t ≠ "" → Py.endswith c (s +:+ t) = Py.endswith c t.
Proof.
  intros Ht. induction s as [|a s IH]; [done|].
  rewrite append_cons. simpl. destruct (s +:+ t) eqn:E; [|done].
  by apply append_eq_nil in E as [_ ?].
Qed.

Lemma drop_last_app (s : string) (a : ascii) : Py.drop_last (s +:+ String a "") = s.
Proof.
  induction s as [|b s IH]; [done|].
  rewrite append_cons. simpl. destruct (s +:+ String a "") eqn:E.
  - by apply append_eq_nil in E as [_ ?].
  - by rewrite IH.
Qed.

Lemma split_length_pos (sep : ascii) (s : string) : (1 ≤ length (Py.split sep s))%nat.
Proof.
  induction s as [|c s IH]; simpl; [lia|].
  destruct (bool_decide (c = sep)); [simpl; lia|].
  destruct (Py.split sep s); simpl in *; lia.
Qed.

Lemma split_no_sep (sep : ascii) (s : string) :
  Py.contains sep s = false → Py.split sep s = [s].
Proof.
  induction s as [|c s IH]; simpl; [done|].
  intros [Hc Hs]%orb_false_elim. rewrite Hc, (IH Hs). done.
Qed.

Lemma split_contains (sep : ascii) (s : string) :
  Py.contains sep s = true → (2 ≤ length (Py.split sep s))%nat.
Proof.
  induction s as [|c s IH]; simpl; [done|].
  destruct (bool_decide (c = sep)); simpl.
  - intros _. pose proof (split_length_pos sep s). lia.
  - intros Hs. specialize (IH Hs). destruct (Py.split sep s); simpl in *; lia.
Qed.

(** Splitting at a separator splits both sides. *)
Lemma split_app_sep (sep : ascii) (p t : string) :
  Py.split sep (p +:+ String sep t) = Py.split sep p ++ Py.split sep t.
Proof.
  induction p as [|c p IH].
  - rewrite append_nil_l. simpl. by rewrite bool_decide_eq_true_2.
  - rewrite append_cons. simpl. destruct (bool_decide (c = sep)); [by rewrite IH|].
    rewrite IH. pose proof (split_length_pos sep p).
    destruct (Py.split sep p); [simpl in *; lia|done].
Qed.

Lemma bind_snd_congr {A B} (m m' : M A) (k : A → M B) :
  m.2 = m'.2 → (m ≫= k).2 = (m' ≫= k).2.
Proof.
  destruct m as [l o], m' as [l' o']. intros Ho. simpl in Ho. subst o.
  destruct o' as [a|e]; [by rewrite !bind_ret_M|done].
Qed.

(** For an ASCII capital: it is its own upper case, its lower case has it
    as upper case, and it is one letter, not the separator. *)
Lemma ascii_uppercase_facts (x : string) :
  x ∈ ascii_uppercase →
  Py.upper x = x ∧ Py.upper (Py.lower x) = x
  ∧ Py.split "+" x = [x] ∧ Py.split "+" (Py.lower x) = [Py.lower x]
  ∧ Py.endswith "+" x = false ∧ Py.endswith "+" (Py.lower x) = false
  ∧ x ≠ "" ∧ Py.lower x ≠ "".
Proof.
  revert x. apply Forall_forall. unfold ascii_uppercase.
  repeat (apply Forall_cons; split; [by vm_compute|]). apply Forall_nil_2.
Qed.

Section ShortcutFacts.

Variable defines : gmap string Z.
Variable cka fka : gmap string string.
Variable lf : string → bool → option Z.


(** X4.  A text of more than one character that ends in [+] names the plus
    key: it parses as the text with that [+] written [plus]. *)
Theorem parse_shortcut_trailing_plus (s : string) :
  s ≠ "" →
  parse_shortcut defines cka fka lf (s +:+ "+")
  = parse_shortcut defines cka fka lf (s +:+ "plus").
Proof.
  intros Hs. unfold parse_shortcut.
  rewrite !endswith_app by done.
  assert ((1 <? Py.len (s +:+ "+")) = true) as ->.
  { apply Z.ltb_lt. unfold Py.len. rewrite append_length. simpl.
    destruct s; [done|simpl; lia]. }
  rewrite drop_last_app.
  change (Py.endswith "+" "+" && true) with true.
  change (Py.endswith "+" "plus" && _) with (false && (1 <? Py.len (s +:+ "plus"))).
  reflexivity.
Qed.

(** X5.  The last letter of a shortcut is read without regard to its case:
    a capital after any modifier section, or alone, gives the trigger of
    the lower-case letter.  Alone, that is the mask 0 and the code of the
    lower-case letter. *)
Theorem parse_shortcut_capital (p x : string) :
  x ∈ ascii_uppercase →
  (parse_shortcut defines cka fka lf (p +:+ "+" +:+ x)).2
  = (parse_shortcut defines cka fka lf (p +:+ "+" +:+ Py.lower x)).2
  ∧ parse_shortcut defines cka fka lf x = parse_shortcut defines cka fka lf (Py.lower x)
  ∧ ∃ code, Py.ord (Py.lower x) = Some code
            ∧ parse_shortcut defines cka fka lf x = ([], Ret (mkSingleKey 0 false code)).
Proof.
  intros Hx.
  destruct (ascii_uppercase_facts x Hx)
    as (Hup & Hul & Hsx & Hsl & Hex & Hel & Hnx & Hnl).
  pose proof (aliases_with_ascii_lowercase_capital cka x Hx) as Hq.
  assert (Hbare : ∀ y, Py.split "+" y = [y] → Py.endswith "+" y = false →
            Py.upper y = x →
            parse_shortcut defines cka fka lf y
            = (let '(is_native, key) :=
                 if Py.startswith "0x" (Py.lower x) then
                   match Py.int16 (Py.lower x) with
                   | None => (false, 0)
                   | Some k => (true, k)
                   end
                 else
                   match Py.ord (Py.lower x) with
                   | Some k => (false, k)
                   | None =>
                       match defines !! ("GLFW_FKEY_"
                               +:+ default (Py.upper (Py.lower x))
                                     (fka !! Py.upper (Py.lower x))) with
                       | None => (0 <? or0 (lf (Py.lower x) false),
                                  or0 (lf (Py.lower x) false))
                       | Some z => (false, z)
                       end
                   end in
               mret (mkSingleKey 0 is_native key))).
  { intros y Hsy Hey Huy. unfold parse_shortcut. rewrite Hey. cbv zeta.
    change (false && _) with false. cbv iota. rewrite Hsy.
    change (1 <? Z.of_nat (length [y])) with false. cbv iota.
    change (List.last [y] "") with y. rewrite Huy, Hq. simpl default.
    by rewrite bind_mret_M. }
  split; [|split].
  - unfold parse_shortcut.
    rewrite !(endswith_app "+" p) by done.
    change ("+" +:+ x) with (String "+" x).
    change ("+" +:+ Py.lower x) with (String "+" (Py.lower x)).
    assert (Hend : ∀ y, y ≠ "" → Py.endswith "+" y = false →
              Py.endswith "+" (String "+" y) = false).
    { intros y Hy Hey. simpl. by destruct y. }
    rewrite (Hend x Hnx Hex), (Hend (Py.lower x) Hnl Hel).
    change (false && _) with false. cbv zeta iota.
    rewrite !split_app_sep, Hsx, Hsl.
    rewrite !removelast_last, !last_last, Hup, Hul, Hq. simpl default.
    assert (Hl : ∀ y : string, (1 <? Z.of_nat (length (Py.split "+" p ++ [y]))) = true).
    { intros y. apply Z.ltb_lt. rewrite length_app. simpl.
      pose proof (split_length_pos "+" p). lia. }
    rewrite !Hl. apply bind_snd_congr. apply bind_snd_congr.
    apply parse_mods_from_text.
  - rewrite (Hbare x Hsx Hex Hup). by rewrite (Hbare (Py.lower x) Hsl Hel Hul).
  - rewrite (Hbare x Hsx Hex Hup).
    assert (Hord : ∃ code, Py.ord (Py.lower x) = Some code
                           ∧ Py.startswith "0x" (Py.lower x) = false).
    { revert Hx. clear. revert x. apply Forall_forall. unfold ascii_uppercase.
      repeat (apply Forall_cons; split; [eexists; split; by vm_compute|]).
      apply Forall_nil_2. }
    destruct Hord as (code & Hc & Hpre). exists code. split; [done|].
    by rewrite Hpre, Hc.
Qed.

End ShortcutFacts.

Lemma parse_shortcut_trailing_plus_witness :
  sample_parse_shortcut ("ctrl+" +:+ "+") = sample_parse_shortcut ("ctrl+" +:+ "plus").
Proof.
  apply (parse_shortcut_trailing_plus sample_defines sample_character_aliases
           sample_functional_aliases sample_lookup "ctrl+").
  discriminate.
Defined.

Lemma parse_shortcut_capital_witness :
  (sample_parse_shortcut ("ctrl+shift" +:+ "+" +:+ "Q")).2
  = (sample_parse_shortcut ("ctrl+shift" +:+ "+" +:+ Py.lower "Q")).2
  ∧ sample_parse_shortcut "Q" = sample_parse_shortcut (Py.lower "Q")
  ∧ ∃ code, Py.ord (Py.lower "Q") = Some code
            ∧ sample_parse_shortcut "Q" = ([], Ret (mkSingleKey 0 false code)).
Proof.
  apply (parse_shortcut_capital sample_defines sample_character_aliases
           sample_functional_aliases sample_lookup "ctrl+shift" "Q").
  unfold ascii_uppercase.
  repeat (apply elem_of_cons; first [left; reflexivity|right]).
Defined.

(** ** Map directives, continued *)

(** The action field of a directive cut in two is never blank. *)
Lemma split_ws_1_second (val a b : string) :
  Py.split_ws 1 val = [a; b] → Py.strip b ≠ "".
Proof.
  intros Hs. destruct (Py.lstrip val) as [|c t] eqn:El.
  { by rewrite (split_ws_nil_eq _ val El) in Hs. }
  destruct (Py.take_word (String c t)) as [w r] eqn:Et.
  rewrite (split_ws_S_cons 0 val c t w r El Et) in Hs. injection Hs as _ Hs.
  destruct (Py.lstrip r) as [|c' t'] eqn:Er; [done|]. injection Hs as <-.
  rewrite strip_empty_iff. apply lstrip_by_head in Er.
  unfold Py.lstrip. simpl. by rewrite Er.
Qed.

Section MapFacts.

Variable defines : gmap string Z.
Variable cka fka : gmap string string.
Variable lf : string → bool → option Z.
Variable args_funcs : gmap string arg_parser.

(** A segment is good when it parses to a trigger with a key code other
    than 0. *)
Abbreviation good_segment :=
  (λ (part : string) (k : SingleKey),
     (parse_shortcut defines cka fka lf part).2 = Ret k ∧ sk_key k ≠ 0).

Lemma checked_shortcut_good (sc part : string) (k : SingleKey) :
  good_segment part k →
  (checked_shortcut defines cka fka lf sc part).2 = Ret (Some k).
Proof.
  intros [Hk Hz]. unfold checked_shortcut.
  rewrite (try_except_snd _ _ _ k Hk).
  apply Z.eqb_neq in Hz. by rewrite Hz.
Qed.

Lemma parse_sequence_good (sc : string) (parts : list string) (ks : list SingleKey)
    (trigger : option SingleKey) (restl : list SingleKey) :
  Forall2 good_segment parts ks →
  (parse_sequence defines cka fka lf sc parts trigger restl).2
  = Ret (Some (match trigger, ks with
               | Some t, _ => SeqVars (Some t) (restl ++ ks)
               | None, k :: ks' => SeqVars (Some k) (restl ++ ks')
               | None, [] => SeqVars None restl
               end)).
Proof.
  intros Hks. revert trigger restl.
  induction Hks as [|p k parts ks Hk _ IH]; intros trigger restl; simpl.
  - destruct trigger; by rewrite ?app_nil_r.
  - rewrite (bind_snd _ _ _ (checked_shortcut_good sc p k Hk)).
    destruct trigger as [t|]; rewrite IH; [|done].
    by rewrite <- app_assoc.
Qed.

Lemma good_segments_keys (parts : list string) (ks : list SingleKey) :
  Forall2 good_segment parts ks → Forall (λ k, sk_key k ≠ 0) ks.
Proof. induction 1 as [|p k parts ks [_ Hk] _ IH]; by constructor. Qed.

(** X6.  A directive whose shortcut is not empty, whose segments all parse
    to a key code other than 0 and whose action parses yields exactly one
    [KeyDefinition]: the first segment is its trigger, the others are its
    tail in order, and it is a sequence exactly when the shortcut holds the
    separator. *)
Theorem parse_map_valid (val sc0 action0 : string) (k0 : SingleKey)
    (ks : list SingleKey) (pa : KeyAction) :
  Py.split_ws 1 val = [sc0; action0] →
  Py.strip_char sequence_sep (Py.strip sc0) ≠ "" →
  Forall2 good_segment
    (Py.split sequence_sep (Py.strip_char sequence_sep (Py.strip sc0))) (k0 :: ks) →
  (parse_key_action args_funcs (Py.strip action0)).2 = Ret (Some pa) →
  (parse_map defines cka fka lf args_funcs val).2
  = Ret [mkKeyDefinition
           (Py.contains sequence_sep (Py.strip_char sequence_sep (Py.strip sc0)))
           pa k0 ks].
Proof.
  intros Hsplit Hsc Hks Hpa. unfold parse_map. rewrite Hsplit. cbv zeta beta iota.
  apply String.eqb_neq in Hsc. rewrite Hsc.
  pose proof (split_ws_1_second val sc0 action0 Hsplit) as Ha.
  apply String.eqb_neq in Ha. rewrite Ha. change (false || false) with false. cbv iota.
  destruct (Py.contains sequence_sep _) eqn:Hseq.
  - rewrite (bind_snd _ _ _ (parse_sequence_good _ _ _ None [] Hks)).
    rewrite (try_except_snd _ _ _ _ Hpa). simpl. by destruct k0.
  - rewrite (split_no_sep _ _ Hseq) in Hks.
    apply Forall2_cons_1 in Hks as [Hk Hnil]. apply Forall2_nil_inv_l in Hnil as ->.
    rewrite (bind_snd _ _ (Some (KeyVars k0))).
    + rewrite (try_except_snd _ _ _ _ Hpa). simpl. by destruct k0.
    + by rewrite (bind_snd _ _ _ (checked_shortcut_good _ _ k0 Hk)).
Qed.

(** X7.  Whatever the line, [parse_map] yields at most one [KeyDefinition],
    and in what it yields no trigger has the key code 0, and the tail is not
    empty exactly when the definition is a sequence. *)
Theorem parse_map_invariant (val : string) :
  ∃ l, (parse_map defines cka fka lf args_funcs val).2 = Ret l
       ∧ (length l ≤ 1)%nat
       ∧ Forall (λ d, sk_key (trigger d) ≠ 0
                      ∧ Forall (λ k, sk_key k ≠ 0) (rest d)
                      ∧ (is_sequence d = true ↔ rest d ≠ [])) l.
Proof.
  assert (Hnil : ∃ l : list KeyDefinition, Ret [] = Ret l ∧ (length l ≤ 1)%nat
            ∧ Forall (λ d, sk_key (trigger d) ≠ 0
                           ∧ Forall (λ k, sk_key k ≠ 0) (rest d)
                           ∧ (is_sequence d = true ↔ rest d ≠ [])) l).
  { exists []. split; [done|]. split; [simpl; lia|constructor]. }
  unfold parse_map.
  destruct (Py.split_ws 1 val) as [|sc0 [|action0 [|? ?]]]; try exact Hnil.
  cbv zeta. destruct (_ || _); [exact Hnil|].
  destruct (Py.contains sequence_sep _) eqn:Hseq.
  - destruct (parse_sequence_returns defines cka fka lf
                (Py.strip_char sequence_sep (Py.strip sc0))
                (Py.split sequence_sep (Py.strip_char sequence_sep (Py.strip sc0)))
                None []) as [r Hr].
    rewrite (bind_snd _ _ r Hr). destruct r as [vars|]; [|exact Hnil].
    apply parse_sequence_some in Hr as (ks & Hks & ->).
    pose proof (split_contains _ _ Hseq) as Hlen.
    rewrite (Forall2_length _ _ _ Hks) in Hlen.
    destruct ks as [|k [|k' ks]]; [simpl in Hlen; lia..|].
    apply good_segments_keys in Hks. apply Forall_cons in Hks as [Hk Hks'].
    destruct (parse_key_action args_funcs (Py.strip action0)) as [la [[pa|]|e]];
      unfold try_except; simpl; try exact Hnil.
    eexists. split; [reflexivity|]. split; [simpl; lia|].
    constructor; [|constructor]. simpl. split; [done|]. split; [done|]. done.
  - destruct (checked_shortcut_returns defines cka fka lf
                (Py.strip_char sequence_sep (Py.strip sc0))
                (Py.strip_char sequence_sep (Py.strip sc0))) as [r Hr].
    rewrite (bind_snd _ _ (KeyVars <$> r)) by (by rewrite (bind_snd _ _ r Hr)).
    destruct r as [k|]; [|exact Hnil].
    apply checked_shortcut_some in Hr as [_ Hk].
    destruct (parse_key_action args_funcs (Py.strip action0)) as [la [[pa|]|e]];
      unfold try_except; simpl; try exact Hnil.
    eexists. split; [reflexivity|]. split; [simpl; lia|].
    constructor; [|constructor]. simpl. split; [done|]. split; [constructor|]. done.
Qed.

End MapFacts.

Lemma parse_map_valid_witness :
  (sample_parse_map "  ctrl+a>shift+b>  kitten hints --x ").2
  = Ret [mkKeyDefinition
           (Py.contains sequence_sep (Py.strip_char sequence_sep (Py.strip "ctrl+a>shift+b>")))
           (mkKeyAction "kitten" ["hints"; "--x"])
           (mkSingleKey 4 false 97) [mkSingleKey 1 false 98]].
Proof.
  refine (parse_map_valid sample_defines sample_character_aliases
            sample_functional_aliases sample_lookup sample_args_funcs
            "  ctrl+a>shift+b>  kitten hints --x " "ctrl+a>shift+b>"
            "kitten hints --x " (mkSingleKey 4 false 97) [mkSingleKey 1 false 98]
            (mkKeyAction "kitten" ["hints"; "--x"]) _ _ _ _).
  - reflexivity.
  - discriminate.
  - repeat (constructor; [split; [reflexivity|discriminate]|]). constructor.
  - reflexivity.
Defined.

(** ** Mouse directives, continued *)

Lemma try_except_snd_raise {A B} (m : M A) (h : exn → M B) (k : A → M B) (e : exn) :
  m.2 = Raise e → (try_except m h k).2 = (h e).2.
Proof.
  destruct m as [l o]. intros Ho. simpl in Ho. subst o.
  unfold try_except. by destruct (h e).
Qed.

Lemma log_then_nil_snd {A} (msg : string) :
  (log_error msg;; (mret [] : M (list A))).2 = Ret [].
Proof. reflexivity. Qed.

(** A list of distinct booleans has at most two elements. *)
Lemma NoDup_bool_length (l : list bool) : NoDup l → (length l ≤ 2)%nat.
Proof.
  intros Hl. destruct l as [|a [|b [|c l]]]; simpl; try lia.
  exfalso. apply NoDup_cons in Hl as [Ha Hl]. apply NoDup_cons in Hl as [Hb _].
  apply not_elem_of_cons in Ha as [Hab Ha]. apply not_elem_of_cons in Ha as [Hac _].
  apply not_elem_of_cons in Hb as [Hbc _]. by destruct a, b, c.
Qed.

Lemma modes_known (S : gset string) (z : string) :
  S ∖ {["grabbed"; "ungrabbed"]} = ∅ → z ∈ S → z = "grabbed" ∨ z = "ungrabbed".
Proof.
  intros Hs Hz.
  destruct (decide (z = "grabbed")) as [|Hg]; [by left|].
  destruct (decide (z = "ungrabbed")) as [|Hu]; [by right|].
  exfalso. apply (not_elem_of_empty (C := gset string) z). rewrite <- Hs.
  apply elem_of_difference. split; [done|].
  rewrite elem_of_union, !elem_of_singleton. tauto.
Qed.

Section MouseFacts.

Variable defines : gmap string Z.
Variable args_funcs : gmap string arg_parser.

(** What [parse_mouse_map] yields: nothing, or one record for each element
    of the set of modes, which is then a subset of the two known modes. *)
Lemma parse_mouse_map_shape (val : string) :
  ∃ l, (parse_mouse_map defines args_funcs val).2 = Ret l
       ∧ (l = []
          ∨ ∃ xbutton event modes action button mods count pa,
              Py.split_ws 3 val = [xbutton; event; modes; action]
              ∧ mouse_event_counts !! Py.lower event = Some count
              ∧ (list_to_set (Py.split "," (Py.lower modes)) : gset string)
                ∖ {["grabbed"; "ungrabbed"]} = ∅
              ∧ l = (λ mode, mkMouseMapping button mods count
                               (String.eqb mode "grabbed") pa)
                    <$> elements (list_to_set (Py.split "," (Py.lower modes))
                                  : gset string)).
Proof.
  assert (Hnil : ∀ o : outcome (list MouseMapping), o = Ret [] →
            ∃ l, o = Ret l
                 ∧ (l = []
                    ∨ ∃ xbutton event modes action button mods count pa,
                        Py.split_ws 3 val = [xbutton; event; modes; action]
                        ∧ mouse_event_counts !! Py.lower event = Some count
                        ∧ (list_to_set (Py.split "," (Py.lower modes)) : gset string)
                          ∖ {["grabbed"; "ungrabbed"]} = ∅
                        ∧ l = (λ mode, mkMouseMapping button mods count
                                         (String.eqb mode "grabbed") pa)
                              <$> elements (list_to_set (Py.split "," (Py.lower modes))
                                            : gset string))).
  { intros o ->. exists []. split; [done|by left]. }
  unfold parse_mouse_map.
  destruct (Py.split_ws 3 val) as [|xbutton [|event [|modes [|action [|? ?]]]]] eqn:Hsplit;
    try (apply Hnil; reflexivity).
  cbv zeta.
  match goal with |- context [?m ≫= _] =>
    assert (Hr : returns m) end.
  { destruct (1 <? _); [|apply returns_mret].
    apply returns_bind; [apply parse_mods_from_returns|intros; apply returns_mret]. }
  destruct Hr as [r Hr]. rewrite (bind_snd _ _ r Hr).
  destruct r as [[obutton mods]|]; [|apply Hnil; reflexivity].
  destruct (defines !! _) as [button|]; [|apply Hnil; reflexivity].
  destruct (mouse_event_counts !! Py.lower event) as [count|] eqn:Hcount;
    [|apply Hnil; reflexivity].
  destruct (decide _) as [Hsub|Hsub]; [|apply Hnil; reflexivity].
  destruct (parse_key_action args_funcs action) as [la [[pa|]|e]] eqn:Hpa.
  - rewrite (try_except_snd _ _ _ (Some pa)) by done.
    eexists. split; [reflexivity|]. right.
    exists xbutton, event, modes, action, button, mods, count, pa. done.
  - rewrite (try_except_snd _ _ _ None) by done. apply Hnil. reflexivity.
  - rewrite (try_except_snd_raise _ _ _ e) by done. apply Hnil. reflexivity.
Qed.

(** X8.  Whatever the line, [parse_mouse_map] yields at most two records;
    they share button, modifier mask, repeat count and action, their
    [grabbed] flags differ, and the repeat count is one of the six event
    codes, never 0. *)
Theorem parse_mouse_map_invariant (val : string) :
  ∃ l, (parse_mouse_map defines args_funcs val).2 = Ret l
       ∧ (length l ≤ 2)%nat
       ∧ NoDup (grabbed <$> l)
       ∧ (∀ d d', d ∈ l → d' ∈ l →
            button d = button d' ∧ mods d = mods d'
            ∧ repeat_count d = repeat_count d' ∧ mm_action d = mm_action d')
       ∧ Forall (λ d, repeat_count d ∈ [-3; -2; -1; 1; 2; 3]) l.
Proof.
  destruct (parse_mouse_map_shape val) as (l & Hl & Hshape).
  exists l. split; [done|].
  assert (Hflags : NoDup (grabbed <$> l)
            ∧ (∀ d d', d ∈ l → d' ∈ l →
                 button d = button d' ∧ mods d = mods d'
                 ∧ repeat_count d = repeat_count d' ∧ mm_action d = mm_action d')
            ∧ Forall (λ d, repeat_count d ∈ [-3; -2; -1; 1; 2; 3]) l).
  { destruct Hshape as [->|(xb & ev & md & ac & b & m & c & pa & _ & Hc & Hsub & ->)].
    - split; [constructor|]. split; [|constructor].
      intros d d' Hd. by apply elem_of_nil in Hd.
    - split; [|split].
      + rewrite <- list_fmap_compose. apply NoDup_fmap_2_strong; [|apply NoDup_elements].
        intros x y Hx Hy. apply elem_of_elements in Hx, Hy.
        destruct (modes_known _ x Hsub Hx) as [->| ->],
          (modes_known _ y Hsub Hy) as [->| ->]; simpl; done.
      + intros d d' Hd Hd'.
        apply list_elem_of_fmap in Hd as (x & -> & _).
        apply list_elem_of_fmap in Hd' as (y & -> & _). done.
      + apply Forall_fmap, Forall_forall. intros x _. simpl.
        apply elem_of_list_to_map_2 in Hc. simpl in Hc.
        repeat (apply elem_of_cons in Hc as [[= _ <-]|Hc];
                [repeat (apply elem_of_cons; first [left; reflexivity|right])|]).
        by apply elem_of_nil in Hc. }
  destruct Hflags as (Hnd & Hshare & Hcount).
  split; [|done]. rewrite <- (length_fmap grabbed). by apply NoDup_bool_length.
Qed.

(** X9.  One token of the modes field that is neither [grabbed] nor
    [ungrabbed] invalidates the whole line: nothing is yielded for the
    modes that are known either. *)
Theorem parse_mouse_map_unknown_mode (val xbutton event modes action tok : string) :
  Py.split_ws 3 val = [xbutton; event; modes; action] →
  tok ∈ Py.split "," (Py.lower modes) →
  tok ≠ "grabbed" → tok ≠ "ungrabbed" →
  (parse_mouse_map defines args_funcs val).2 = Ret [].
Proof.
  intros Hsplit Htok Hg Hu.
  destruct (parse_mouse_map_shape val) as (l & Hl & Hshape). rewrite Hl. f_equal.
  destruct Hshape as [->|(xb & ev & md & ac & b & m & c & pa & Hs & _ & Hsub & _)]; [done|].
  rewrite Hsplit in Hs. injection Hs as <- <- <- <-.
  exfalso.
  assert (tok ∈ (list_to_set (Py.split "," (Py.lower modes)) : gset string)) as Hin
    by (by apply elem_of_list_to_set).
  by destruct (modes_known _ tok Hsub Hin).
Qed.

End MouseFacts.

Lemma parse_mouse_map_unknown_mode_witness :
  (sample_parse_mouse_map "left press grabbed,both close_tab").2 = Ret [].
Proof.
  refine (parse_mouse_map_unknown_mode sample_defines sample_args_funcs
            "left press grabbed,both close_tab" "left" "press" "grabbed,both"
            "close_tab" "both" _ _ _ _).
  - reflexivity.
  - apply elem_of_cons. right. apply elem_of_cons. by left.
  - discriminate.
  - discriminate.
Defined.

(** ** Kitten aliases, continued *)

(** X10.  When no key of the table equals argument 0, and when the action
    has no argument, [resolve_kitten_aliases] leaves the action as it is
    and raises nothing, whatever the expansions of the table are. *)
Theorem resolve_kitten_aliases_unchanged {D} `{BaseDefinition D}
    (aliases : list (string * list string)) (self : D) :
  (∀ k more, args (action self) = k :: more → k ∉ aliases.*1) →
  resolve_action aliases (action self) = ([], Ret (action self))
  ∧ resolve_kitten_aliases aliases self = ([], Ret (set_action (action self) self)).
Proof.
  intros Hk.
  assert (Ha : resolve_action aliases (action self) = ([], Ret (action self))).
  { unfold resolve_action. destruct (args (action self)) as [|k more] eqn:E; [done|].
    by rewrite (alias_loop_skip aliases false k _ (Hk k more eq_refl)). }
  split; [done|]. unfold resolve_kitten_aliases. by rewrite Ha.
Qed.

Lemma resolve_kitten_aliases_unchanged_witness :
  resolve_action [("a", []); ("b", ["c"])] (mkKeyAction "kitten" ["hints"; "--x"])
  = ([], Ret (mkKeyAction "kitten" ["hints"; "--x"]))
  ∧ resolve_kitten_aliases [("a", []); ("b", ["c"])]
      (mkMouseMapping 0 0 1 true (mkKeyAction "kitten" ["hints"; "--x"]))
    = ([], Ret (mkMouseMapping 0 0 1 true (mkKeyAction "kitten" ["hints"; "--x"]))).
Proof.
  refine (resolve_kitten_aliases_unchanged [("a", []); ("b", ["c"])]
            (mkMouseMapping 0 0 1 true (mkKeyAction "kitten" ["hints"; "--x"])) _).
  intros k more [= <- _]. solve_not_elem.
Defined.

Lemma split_ws_S_inv (n : nat) (s w : string) (tl : list string) :
  Py.split_ws (S n) s = w :: tl →
  w ≠ "" ∧ Py.all_chars (λ c, negb (Py.isspace c)) w = true
  ∧ ∃ r, tl = Py.split_ws n r.
Proof.
  intros Hs. destruct (Py.lstrip s) as [|c t] eqn:El.
  { by rewrite (split_ws_nil_eq _ s El) in Hs. }
  destruct (Py.take_word (String c t)) as [w' r] eqn:Et.
  rewrite (split_ws_S_cons n s c t w' r El Et) in Hs. injection Hs as <- <-.
  destruct (take_word_lstrip s c t w' r El Et) as [Hw _].
  apply take_word_spec in Et as (_ & Hsp & _). split; [done|]. split; [done|by exists r].
Qed.

(** X11.  [kitten_alias] contributes at most one entry.  Its name and the
    first element of its expansion are not empty and hold no white space,
    and the expansion has one or two elements, none of them empty. *)
Theorem kitten_alias_shape (val : string) :
  (length (kitten_alias val) ≤ 1)%nat
  ∧ Forall (λ entry,
              entry.1 ≠ "" ∧ Py.all_chars (λ c, negb (Py.isspace c)) entry.1 = true
              ∧ (∃ target rest, entry.2 = target :: rest
                   ∧ Py.all_chars (λ c, negb (Py.isspace c)) target = true
                   ∧ (length rest ≤ 1)%nat)
              ∧ Forall (λ e, e ≠ "") entry.2)
      (kitten_alias val).
Proof.
  unfold kitten_alias.
  pose proof (split_ws_fields (λ _, true) 2 val) as (Hne & _ & _).
  destruct (Py.split_ws 2 val) as [|name [|p parts]] eqn:Hs;
    [split; [simpl; lia|constructor]..|].
  split; [simpl; lia|]. constructor; [|constructor]. simpl.
  apply split_ws_S_inv in Hs as (Hname & Hsp & r & Hr). symmetry in Hr.
  apply Forall_cons in Hne as [_ Hne].
  pose proof (split_ws_fields (λ _, true) 1 r) as (_ & Hlen & _).
  rewrite Hr in Hlen. apply split_ws_S_inv in Hr as (_ & Hp & _).
  split; [done|]. split; [done|]. split; [|done].
  exists p, parts. split; [done|]. split; [done|]. simpl in Hlen. lia.
Qed.

(** X12.  The entry [kitten_alias] builds from a line is what
    [resolve_kitten_aliases] expects: an action whose argument 0 is the
    alias name is rewritten to the target, with the arguments of the alias
    put before its own trailing arguments. *)
Theorem kitten_alias_resolves (val name target : string) (exp more : list string)
    (a : KeyAction) :
  Py.split_ws 2 val = name :: target :: exp →
  args a = name :: more →
  resolve_action (kitten_alias val) a
  = ([], Ret (mkKeyAction (func a)
                [target; Py.rstrip (match exp with
                                    | e1 :: _ => e1 +:+ " " +:+ hd "" more
                                    | [] => hd "" more
                                    end)])).
Proof.
  intros Hs Ha. unfold kitten_alias, resolve_action. rewrite Hs, Ha.
  simpl alias_loop. rewrite String.eqb_refl. rewrite bind_mret_M.
  by destruct more, exp.
Qed.

Lemma kitten_alias_resolves_witness :
  resolve_action (kitten_alias "hints hints --hints-offset=0  --alphabet abc ")
    (mkKeyAction "kitten" ["hints"; "--type path "])
  = ([], Ret (mkKeyAction "kitten"
                ["hints"; Py.rstrip ("--hints-offset=0  --alphabet abc " +:+ " "
                                     +:+ hd "" ["--type path "])])).
Proof.
  refine (kitten_alias_resolves "hints hints --hints-offset=0  --alphabet abc "
            "hints" "hints" ["--hints-offset=0  --alphabet abc "] ["--type path "]
            (mkKeyAction "kitten" ["hints"; "--type path "]) _ _); reflexivity.
Defined.

(** ** Symbol maps *)

Lemma symbol_map_abort_eq {A} (val : string) :
  symbol_map_abort (A := A) val = (["Symbol map: " +:+ val +:+ " is invalid, ignoring"], Ret []).
Proof. reflexivity. Qed.

(** One item of the loop of [symbol_map]: either it aborts the loop, or its
    range is within bounds and is yielded before the loop goes on. *)
Lemma symbol_map_item (val family x : string) :
  (∀ items, symbol_map_ranges val family (x :: items) = symbol_map_abort val)
  ∨ ∃ a b, 1 ≤ a ∧ a ≤ b ∧ b ≤ sys_maxunicode
           ∧ to_chr (Py.partition "-" x).1 = Some a
           ∧ ∀ items, symbol_map_ranges val family (x :: items)
                      = (more ← symbol_map_ranges val family items;
                         mret (((a, b), family) :: more)).
Proof.
  destruct (Py.partition "-" x) as [a_ b_] eqn:Ep.
  destruct (to_chr a_) as [a|] eqn:Ea.
  2:{ left. intros items. simpl. by rewrite Ep, Ea. }
  destruct (to_chr (if String.eqb b_ "" then a_ else b_)) as [b|] eqn:Eb.
  2:{ left. intros items. simpl. by rewrite Ep, Ea, Eb. }
  destruct ((b <? a) || (sys_maxunicode <? Z.max a b) || (Z.min a b <? 1)) eqn:Hb.
  { left. intros items. simpl. by rewrite Ep, Ea, Eb, Hb. }
  right. exists a, b.
  apply orb_false_elim in Hb as [Hb H3]. apply orb_false_elim in Hb as [H1 H2].
  apply Z.ltb_ge in H1, H2, H3.
  split; [lia|]. split; [lia|]. split; [lia|]. split; [done|].
  intros items. simpl. rewrite Ep, Ea, Eb.
  assert (((b <? a) || (sys_maxunicode <? Z.max a b) || (Z.min a b <? 1)) = false) as ->; [|done].
  apply orb_false_intro; [apply orb_false_intro|]; apply Z.ltb_ge; lia.
Qed.

Lemma symbol_map_ranges_outcome (val family : string) (items : list string) :
  ∃ log l,
    symbol_map_ranges val family items = (log, Ret l)
    ∧ (log = [] ∨ log = ["Symbol map: " +:+ val +:+ " is invalid, ignoring"])
    ∧ (log = [] → length l = length items)
    ∧ Forall (λ e, 1 ≤ e.1.1 ∧ e.1.1 ≤ e.1.2 ∧ e.1.2 ≤ sys_maxunicode ∧ e.2 = family) l.
Proof.
  induction items as [|x items IH].
  - exists [], []. split; [done|]. split; [by left|]. split; [done|constructor].
  - destruct (symbol_map_item val family x) as [Hab|(a & b & Ha & Hab & Hb & _ & Hgo)].
    + rewrite Hab, symbol_map_abort_eq. eexists _, []. split; [reflexivity|].
      split; [by right|]. split; [done|constructor].
    + destruct IH as (log & l & IH & Hlog & Hfull & Hall).
      rewrite Hgo, IH, bind_ret_M. simpl. rewrite app_nil_r.
      exists log, (((a, b), family) :: l). split; [done|]. split; [done|].
      split; [intros H; simpl; by rewrite Hfull|].
      constructor; [simpl; done|done].
Qed.

(** X13.  [symbol_map] never raises and logs at most the one warning that
    names the line.  Every range it yields lies within the code points,
    [1 <= a <= b <= sys.maxunicode], and carries the font family, the words
    after the first field joined by single spaces; without a warning there
    is one range for each comma-separated item of the first field. *)
Theorem symbol_map_ranges_valid (val : string) :
  ∃ log l,
    symbol_map val = (log, Ret l)
    ∧ (log = [] ∨ log = ["Symbol map: " +:+ val +:+ " is invalid, ignoring"])
    ∧ Forall (λ e, 1 ≤ e.1.1 ∧ e.1.1 ≤ e.1.2 ∧ e.1.2 ≤ sys_maxunicode
                   ∧ e.2 = Py.join " " (tail (Py.split_all val))) l
    ∧ (log = [] →
       (2 ≤ length (Py.split_all val))%nat
       ∧ length l = length (Py.split "," (hd "" (Py.split_all val)))).
Proof.
  unfold symbol_map. cbv zeta.
  destruct (Z.of_nat (length (Py.split_all val)) <? 2) eqn:Hlen.
  - rewrite symbol_map_abort_eq. eexists _, []. split; [reflexivity|].
    split; [by right|]. split; [constructor|done].
  - apply Z.ltb_ge in Hlen.
    destruct (symbol_map_ranges_outcome val (Py.join " " (tail (Py.split_all val)))
                (Py.split "," (hd "" (Py.split_all val))))
      as (log & l & -> & Hlog & Hfull & Hall).
    exists log, l. split; [done|]. split; [done|]. split; [done|].
    intros H. split; [lia|by apply Hfull].
Qed.

Lemma startswith_U_plus (s : string) :
  Py.startswith "U+" s = true → ∃ t, s = String "U" (String "+" t).
Proof.
  unfold Py.startswith. destruct s as [|c1 [|c2 t]]; cbn [String.prefix].
  - discriminate.
  - destruct (ascii_dec "U" c1); discriminate.
  - destruct (ascii_dec "U" c1) as [<-|]; [|discriminate].
    destruct (ascii_dec "+" c2) as [<-|]; [|discriminate]. intros _. by exists t.
Qed.

Lemma prefix_partition (sep : ascii) (x : string) :
  Py.startswith "U+" (Py.partition sep x).1 = true → Py.startswith "U+" x = true.
Proof.
  destruct (Py.partition sep x) as [a b] eqn:E.
  apply partition_spec in E as [_ Hx]. cbn [fst].
  intros [t ->]%startswith_U_plus.
  assert (Hp : ∀ u, Py.startswith "U+" (String "U" (String "+" u)) = true).
  { intros u. unfold Py.startswith. cbn [String.prefix].
    destruct (ascii_dec "U" "U"); [|congruence].
    destruct (ascii_dec "+" "+"); [|congruence]. by destruct u. }
  destruct Hx as [->|[-> _]]; [rewrite !append_cons|]; apply Hp.
Qed.

(** X14.  An item of the first field that does not start with [U+] ends the
    map with the warning: the items after it are not looked at, and the
    ranges of the items before it are yielded all the same, as they are for
    the field cut before that item. *)
Theorem symbol_map_invalid_item (val family x : string) (pre post : list string) :
  Py.startswith "U+" x = false →
  ∃ log l, symbol_map_ranges val family (pre ++ x :: post) = (log, Ret l)
           ∧ log = ["Symbol map: " +:+ val +:+ " is invalid, ignoring"]
           ∧ (symbol_map_ranges val family pre).2 = Ret l
           ∧ (length l ≤ length pre)%nat.
Proof.
  intros Hx. induction pre as [|y pre IH].
  - exists ["Symbol map: " +:+ val +:+ " is invalid, ignoring"], []. rewrite app_nil_l.
    destruct (symbol_map_item val family x) as [Hab|(a & b & _ & _ & _ & Ha & _)].
    + by rewrite Hab, symbol_map_abort_eq.
    + unfold to_chr in Ha.
      destruct (Py.startswith "U+" (Py.partition "-" x).1) eqn:Hp; [|done].
      apply prefix_partition in Hp. congruence.
  - destruct IH as (log & l & IH & -> & IH2 & Hlen). rewrite <- app_comm_cons.
    destruct (symbol_map_item val family y) as [Hab|(a & b & _ & _ & _ & _ & Hgo)].
    + rewrite !Hab, symbol_map_abort_eq.
      exists ["Symbol map: " +:+ val +:+ " is invalid, ignoring"], [].
      repeat split. simpl. lia.
    + rewrite !Hgo, IH, bind_ret_M.
      exists ["Symbol map: " +:+ val +:+ " is invalid, ignoring"], (((a, b), family) :: l).
      split; [done|]. split; [done|].
      split; [by rewrite (bind_snd _ _ l IH2)|simpl; lia].
Qed.

Lemma symbol_map_invalid_item_witness :
  ∃ log l,
    symbol_map_ranges "U+41-U+5A,U+61,zz,U+30 Fira Code" "Fira Code"
      (["U+41-U+5A"; "U+61"] ++ "zz" :: ["U+30"]) = (log, Ret l)
    ∧ log = ["Symbol map: " +:+ "U+41-U+5A,U+61,zz,U+30 Fira Code" +:+ " is invalid, ignoring"]
    ∧ (symbol_map_ranges "U+41-U+5A,U+61,zz,U+30 Fira Code" "Fira Code"
         ["U+41-U+5A"; "U+61"]).2 = Ret l
    ∧ (length l ≤ length ["U+41-U+5A"; "U+61"])%nat.
Proof.
  apply (symbol_map_invalid_item "U+41-U+5A,U+61,zz,U+30 Fira Code" "Fira Code" "zz"
           ["U+41-U+5A"; "U+61"] ["U+30"]).
  reflexivity.
Defined.

Example symbol_map_example :
  symbol_map "U+41-U+5A,U+61,zz,U+30 Fira  Code"
  = (["Symbol map: U+41-U+5A,U+61,zz,U+30 Fira  Code is invalid, ignoring"],
     Ret [((65, 90), "Fira Code"); ((97, 97), "Fira Code")]).
Proof. reflexivity. Qed.

(** ** Scalar converters *)

(** X15.  Whatever texts [int] reads, [scrollback_lines] never returns a
    negative number: it returns exactly when [int] does, a number that is
    not negative is returned as it is, and a negative one becomes
    [2 ** 32 - 1]. *)
Theorem scrollback_lines_outcome (int : string → option Z) (x : string) :
  (∀ n, scrollback_lines int x = Some n → 0 ≤ n)
  ∧ (scrollback_lines int x = None ↔ int x = None)
  ∧ (∀ ans, int x = Some ans → 0 ≤ ans → scrollback_lines int x = Some ans)
  ∧ (∀ ans, int x = Some ans → ans < 0 → scrollback_lines int x = Some 4294967295).
Proof.
  unfold scrollback_lines. destruct (int x) as [ans|]; cbn [mbind option_bind].
  - destruct (Z.ltb_spec ans 0) as [Hneg|Hpos].
    + split; [intros n [= <-]; done|]. split; [done|].
      split; intros a [= <-]; [lia|done].
    + split; [by intros n [= <-]|]. split; [done|].
      split; intros a [= <-]; [done|lia].
  - repeat split; done.
Qed.

(** X16.  [copy_on_select] is idempotent: its result, [clipboard], the
    empty string or the text itself, is a value it maps to itself. *)
Theorem copy_on_select_idempotent (raw : string) :
  copy_on_select (copy_on_select raw) = copy_on_select raw
  ∧ (copy_on_select raw = "clipboard" ∨ copy_on_select raw = ""
     ∨ copy_on_select raw = raw).
Proof.
  assert (Hcases : copy_on_select raw = "clipboard" ∨ copy_on_select raw = ""
                   ∨ copy_on_select raw = raw).
  { unfold copy_on_select. cbv zeta.
    destruct (bool_decide (Py.lower raw ∈ ["y"; "yes"; "true"; "clipboard"]));
      [by left|].
    destruct (bool_decide (Py.lower raw ∈ ["n"; "no"; "false"; ""]));
      [right; by left|right; by right]. }
  split; [|done].
  destruct Hcases as [H|[H|H]]; rewrite !H; reflexivity.
Qed.

(** X17.  [tab_title_template] takes one pair of matching quotes off a
    quoted text, single or double, and a quote character alone becomes the
    empty string; a text that does not start with a quote character is
    returned as it is. *)
Theorem tab_title_template_quotes (q : ascii) (s x : string) :
  q = "'"%char ∨ q = double_quote →
  tab_title_template (String q (s +:+ String q "")) = s
  ∧ tab_title_template (String q "") = ""
  ∧ (Py.startswith_char "'" x = false → Py.startswith_char double_quote x = false →
     tab_title_template x = x).
Proof.
  intros Hq. split; [|split].
  - unfold tab_title_template. cbn [String.eqb]. 
    assert (He : Py.endswith q (String q (s +:+ String q "")) = true).
    { rewrite <- append_cons, endswith_app by done. simpl. by rewrite bool_decide_eq_true_2. }
    destruct Hq as [->| ->]; cbn [strip_quotes Py.startswith_char].
    + rewrite He. rewrite bool_decide_eq_true_2 by done. cbn [andb].
      apply drop_last_app.
    + rewrite He. rewrite (bool_decide_eq_false_2 (double_quote = "'"%char)) by done.
      rewrite bool_decide_eq_true_2 by done. cbn [andb]. apply drop_last_app.
  - destruct Hq as [->| ->]; reflexivity.
  - intros H1 H2. unfold tab_title_template.
    destruct (String.eqb x ""); [done|].
    cbn [strip_quotes]. by rewrite H1, H2.
Qed.

Lemma tab_title_template_quotes_witness :
  tab_title_template (String double_quote ("{index}: 'x'" +:+ String double_quote ""))
  = "{index}: 'x'"
  ∧ tab_title_template (String double_quote "") = ""
  ∧ (Py.startswith_char "'" "{title}'" = false →
     Py.startswith_char double_quote "{title}'" = false →
     tab_title_template "{title}'" = "{title}'").
Proof.
  apply (tab_title_template_quotes double_quote "{index}: 'x'" "{title}'").
  by right.
Defined.

Lemma all_chars_and (p q : ascii → bool) (s : string) :
  Py.all_chars p s = true → Py.all_chars q s = true →
  Py.all_chars (λ c, p c && q c) s = true.
Proof.
  induction s as [|c s IH]; simpl; [done|].
  intros [Hp Hs]%andb_prop [Hq Hs']%andb_prop. by rewrite Hp, Hq, IH.
Qed.

Lemma replace_all (old new : ascii) (s : string) :
  old ≠ new → Py.all_chars (λ c, negb (bool_decide (c = old))) (Py.replace old new s) = true.
Proof.
  intros Hne. unfold Py.replace. induction s as [|c s IH]; simpl; [done|].
  rewrite IH, andb_true_r. destruct (bool_decide (c = old)) eqn:Hc; [|by rewrite Hc].
  by rewrite bool_decide_eq_false_2.
Qed.

Lemma lower_char_keeps (c : ascii) :
  negb (Py.isspace c) && negb (bool_decide (c = ","%char)) = true →
  negb (Py.isspace (Py.lower_char c))
  && negb (bool_decide (Py.lower_char c = ","%char)) = true.
Proof. by destruct c as [[] [] [] [] [] [] [] []]. Qed.

(** X18.  The prefixes [url_prefixes] returns are the fields of the text
    between commas and white space: none is empty, none holds a comma or
    white space, and all are in lower case. *)
Theorem url_prefixes_fields (x : string) :
  Forall (λ w, w ≠ "" ∧ Py.lower w = w
               ∧ Py.all_chars (λ c, negb (Py.isspace c)
                                    && negb (bool_decide (c = ","%char))) w = true)
    (url_prefixes x).
Proof.
  unfold url_prefixes. apply Forall_fmap.
  pose proof (split_all_words (Py.replace "," " " x)) as Hw.
  pose proof (split_ws_fields (λ c, negb (bool_decide (c = ","%char)))
                (String.length (Py.replace "," " " x)) (Py.replace "," " " x))
    as (_ & _ & Hc).
  specialize (Hc (replace_all "," " " x ltac:(done))).
  fold (Py.split_all (Py.replace "," " " x)) in Hc.
  apply Forall_and in Hw as [Hne Hsp].
  revert Hne Hsp Hc. generalize (Py.split_all (Py.replace "," " " x)).
  intros l Hne Hsp Hc. induction l as [|w l IH]; [constructor|].
  apply Forall_cons in Hne as [Hw Hne], Hsp as [Hs Hsp], Hc as [Hcw Hc].
  constructor; [|by apply IH]. simpl. split; [by destruct w|].
  split; [apply lower_idempotent|].
  apply map_chars_all; [apply lower_char_keeps|]. by apply all_chars_and.
Qed.

Section ConverterFacts.

Context {A P : Type}.
Variable converter : string → outcome A.
Variable parse_font_feature : string → option P.
Variable expandvars : string → gmap string string → string.

(** X19.  [env] yields at most one pair.  The name in it is not empty, has
    no white space around it and holds no [=]: the text is cut at its first
    [=]; a text whose name is blank yields nothing. *)
Theorem env_entry (val : string) (current_val : gmap string string) :
  (length (env expandvars val current_val) ≤ 1)%nat
  ∧ Forall (λ kv, kv.1 ≠ "" ∧ Py.strip kv.1 = kv.1
                  ∧ Py.all_chars (λ c, negb (bool_decide (c = "="%char))) kv.1 = true
                  ∧ kv.1 = Py.strip (Py.partition "=" val).1
                  ∧ kv.2 = expandvars (Py.strip (Py.partition "=" val).2) current_val)
      (env expandvars val current_val)
  ∧ (Py.strip (Py.partition "=" val).1 = "" → env expandvars val current_val = []).
Proof.
  unfold env. destruct (Py.partition "=" val) as [key v] eqn:Ep. cbv zeta. simpl.
  apply partition_spec in Ep as [Hk _].
  destruct (String.eqb_spec (Py.strip key) "") as [He|Hne]; simpl.
  - split; [lia|]. split; [constructor|done].
  - split; [lia|]. split; [|done]. constructor; [|constructor]. simpl.
    split; [done|]. split; [apply strip_idempotent|]. split; [|done].
    unfold Py.strip, Py.strip_by. by apply rstrip_by_all, lstrip_by_all.
Qed.

Ltac outcome_step :=
  unfold mbind, outcome_bind, mret, outcome_ret; cbv beta iota.

(** X20.  [edge_width] reads one to four fields as the CSS shorthand: the
    first is the top edge, the right edge is the second or else the top,
    the bottom edge is the third or else the top, the left edge is the
    fourth or else the right.  It raises on no field, on more than four,
    and with the exception of the converter on a field it refuses. *)
Theorem edge_width_shorthand (x : string) :
  match edge_width converter x with
  | Ret e =>
      (1 ≤ length (Py.split_all x) ≤ 4)%nat
      ∧ ∃ vs, Forall2 (λ p v, converter p = Ret v) (Py.split_all x) vs
              ∧ vs !! 0%nat = Some (fe_top e)
              ∧ fe_right e = default (fe_top e) (vs !! 1%nat)
              ∧ fe_bottom e = default (fe_top e) (vs !! 2%nat)
              ∧ fe_left e = default (fe_right e) (vs !! 3%nat)
  | Raise err =>
      length (Py.split_all x) = 0%nat ∨ (4 < length (Py.split_all x))%nat
      ∨ ∃ p, p ∈ Py.split_all x ∧ converter p = Raise err
  end.
Proof.
  unfold edge_width.
  destruct (Py.split_all x) as [|p0 [|p1 [|p2 [|p3 [|p4 ps]]]]].
  - by left.
  - outcome_step. destruct (converter p0) as [v0|e0] eqn:E0.
    + split; [simpl; lia|]. exists [v0]. split; [by repeat constructor|done].
    + right. right. exists p0. split; [apply elem_of_cons; by left|done].
  - outcome_step. destruct (converter p0) as [v0|e0] eqn:E0.
    2:{ right. right. exists p0. split; [apply elem_of_cons; by left|done]. }
    destruct (converter p1) as [v1|e1] eqn:E1.
    2:{ right. right. exists p1. split; [|done].
        apply elem_of_cons. right. apply elem_of_cons. by left. }
    split; [simpl; lia|]. exists [v0; v1]. split; [by repeat constructor|done].
  - outcome_step. destruct (converter p0) as [v0|e0] eqn:E0.
    2:{ right. right. exists p0. split; [apply elem_of_cons; by left|done]. }
    destruct (converter p1) as [v1|e1] eqn:E1.
    2:{ right. right. exists p1. split; [|done].
        apply elem_of_cons. right. apply elem_of_cons. by left. }
    destruct (converter p2) as [v2|e2] eqn:E2.
    2:{ right. right. exists p2. split; [|done].
        do 2 (apply elem_of_cons; right). apply elem_of_cons. by left. }
    split; [simpl; lia|]. exists [v0; v1; v2]. split; [by repeat constructor|done].
  - outcome_step. destruct (converter p0) as [v0|e0] eqn:E0.
    2:{ right. right. exists p0. split; [apply elem_of_cons; by left|done]. }
    destruct (converter p1) as [v1|e1] eqn:E1.
    2:{ right. right. exists p1. split; [|done].
        apply elem_of_cons. right. apply elem_of_cons. by left. }
    destruct (converter p2) as [v2|e2] eqn:E2.
    2:{ right. right. exists p2. split; [|done].
        do 2 (apply elem_of_cons; right). apply elem_of_cons. by left. }
    destruct (converter p3) as [v3|e3] eqn:E3.
    2:{ right. right. exists p3. split; [|done].
        do 3 (apply elem_of_cons; right). apply elem_of_cons. by left. }
    split; [simpl; lia|]. exists [v0; v1; v2; v3]. split; [by repeat constructor|done].
  - outcome_step.
    destruct (converter p0); [|right; left; simpl; lia].
    destruct (converter p1); [|right; left; simpl; lia].
    destruct (converter p2); [|right; left; simpl; lia].
    destruct (converter p3); [|right; left; simpl; lia].
    destruct (converter p4); right; left; simpl; lia.
Qed.

(** The loop of [font_features]: the features kept are the tokens the
    parser accepts, in order, and each other token is one warning. *)
Lemma parsed_features_outcome (feats : list string) :
  parsed_features parse_font_feature feats
  = (omap (λ f, match parse_font_feature f with
                | None => Some ("Ignoring invalid font feature: " +:+ f)
                | Some _ => None
                end) feats,
     Ret (omap (λ f, pair f <$> parse_font_feature f) feats)).
Proof.
  induction feats as [|f feats IH]; [done|].
  cbn [parsed_features omap list_omap].
  destruct (parse_font_feature f) as [p|]; rewrite IH.
  - rewrite bind_ret_M. cbn [fst snd mret M_ret fmap option_fmap option_map].
    by rewrite app_nil_r.
  - unfold log_error. by rewrite bind_ret_M.
Qed.

Lemma omap_lengths (feats : list string) :
  (length (omap (λ f, pair f <$> parse_font_feature f) feats)
   + length (omap (λ f, match parse_font_feature f with
                        | None => Some ("Ignoring invalid font feature: " +:+ f)
                        | Some _ => None
                        end) feats)
   = length feats)%nat.
Proof.
  induction feats as [|f feats IH]; [done|].
  cbn [omap list_omap]. destruct (parse_font_feature f); simpl; lia.
Qed.

(** X21.  [font_features] never raises.  For a line other than [none] with
    a font name and at least one feature token it yields exactly one entry
    for that name; the features in it are the tokens the parser accepts, in
    their order, and every other token is logged, so that no token is lost
    silently.  A line with fewer than two fields yields nothing. *)
Theorem font_features_accounting (val : string) :
  ∃ log l,
    font_features parse_font_feature val = (log, Ret l)
    ∧ (val ≠ "none" → (2 ≤ length (Py.split_all val))%nat →
       ∃ name tokens,
         Py.split_all val = name :: tokens
         ∧ l = [(name, omap (λ f, pair f <$> parse_font_feature f) tokens)]
         ∧ (length (omap (λ f, pair f <$> parse_font_feature f) tokens)
            + length log = length tokens)%nat)
    ∧ (val = "none" ∨ (length (Py.split_all val) < 2)%nat → l = []).
Proof.
  unfold font_features.
  destruct (String.eqb_spec val "none") as [->|Hval].
  { exists [], []. split; [done|]. split; [done|done]. }
  cbv zeta. destruct (Z.of_nat (length (Py.split_all val)) <? 2) eqn:Hlen.
  { apply Z.ltb_lt in Hlen. eexists _, []. split; [reflexivity|].
    split; [intros _ ?; lia|done]. }
  apply Z.ltb_ge in Hlen. pose proof (split_all_words val) as Hw.
  destruct (Py.split_all val) as [|name tokens]; [simpl in Hlen; lia|].
  apply Forall_cons in Hw as [[Hname _] _].
  apply String.eqb_neq in Hname. rewrite Hname. cbn [negb].
  rewrite parsed_features_outcome, bind_ret_M. cbn [fst snd]. rewrite app_nil_r.
  eexists _, _. split; [reflexivity|]. split.
  - intros _ _. exists name, tokens. split; [done|]. split; [done|]. apply omap_lengths.
  - intros [?|H]; [done|]. lia.
Qed.

End ConverterFacts.

(** X22.  The converters that look a keyword up never fail and stay within
    their codes: [disable_ligatures] gives 0, 1 or 2, [resize_draw_strategy]
    0 to 3, [tab_bar_edge] 1 or 3, and [url_style] a style index from 0 to
    3, the index 3 of [curly] for every text other than the three other
    style names, which it compares as they are written. *)
Theorem keyword_converters_range (x : string) :
  disable_ligatures x ∈ [0; 1; 2]
  ∧ resize_draw_strategy x ∈ [0; 1; 2; 3]
  ∧ tab_bar_edge x ∈ [1; 3]
  ∧ ∃ v, url_style x = Some v ∧ 0 ≤ v ≤ 3
         ∧ (x ≠ "none" → x ≠ "single" → x ≠ "double" → v = 3).
Proof.
  assert (Hin : ∀ (l : list (string * Z)) (d : Z) (k : string) (vals : list Z),
            d ∈ vals → Forall (λ kv, kv.2 ∈ vals) l →
            default d ((list_to_map l : gmap string Z) !! k) ∈ vals).
  { intros l d k vals Hd Hl. destruct (_ !! k) as [v|] eqn:E; [|done]. simpl.
    apply elem_of_list_to_map_2 in E.
    by apply (proj1 (Forall_forall _ _) Hl (k, v)). }
  split; [|split; [|split]].
  - apply Hin; [apply elem_of_cons; by left|].
    repeat (constructor; [simpl; repeat (apply elem_of_cons; first [left; reflexivity|right])|]).
    constructor.
  - apply Hin; [apply elem_of_cons; by left|].
    repeat (constructor; [simpl; repeat (apply elem_of_cons; first [left; reflexivity|right])|]).
    constructor.
  - apply Hin; [apply elem_of_cons; right; apply elem_of_cons; by left|].
    repeat (constructor; [simpl; repeat (apply elem_of_cons; first [left; reflexivity|right])|]).
    constructor.
  - unfold url_style, url_style_map.
    compute_term (imap (λ i v, (v, Z.of_nat i)) (Py.split_all "none single double curly")).
    assert (Hc : (list_to_map [("none", 0); ("single", 1); ("double", 2); ("curly", 3)]
                  : gmap string Z) !! "curly" = Some 3) by reflexivity.
    rewrite Hc. cbn [mbind option_bind].
    destruct (_ !! x) as [v|] eqn:E.
    + exists v. split; [done|]. apply elem_of_list_to_map_2 in E.
      repeat (apply elem_of_cons in E as [[= -> ->]|E]; [split; [lia|by intros]|]).
      by apply elem_of_nil in E.
    + exists 3. split; [done|]. split; [lia|done].
Qed.

(** ** The converters on sample texts *)

Example edge_width_example :
  edge_width (λ s, match Py.int10 4300 s with
                   | Some z => Ret z
                   | None => Raise (Exception "bad")
                   end) "1 2 3"
  = Ret (mkFloatEdges 2 1 2 3).
Proof. reflexivity. Qed.

Example font_features_example :
  font_features (λ s, if Py.startswith "+" s then Some s else None) "Fira +zero bad +ss01"
  = (["Ignoring invalid font feature: bad"],
     Ret [("Fira", [("+zero", "+zero"); ("+ss01", "+ss01")])]).
Proof. reflexivity. Qed.

Example env_example :
  env (λ v _, v) " A = b=c " ∅ = [("A", "b=c")] ∧ env (λ v _, v) " = b " ∅ = [].
Proof. split; reflexivity. Qed.

Example scrollback_lines_example :
  scrollback_lines (Py.int10 4300) "-1" = Some 4294967295
  ∧ scrollback_lines (Py.int10 4300) " 20_00 " = Some 2000
  ∧ scrollback_lines (Py.int10 4300) "0x10" = None.
Proof. repeat split; reflexivity. Qed.

Example tab_converters_example :
  tab_font_style "Bold_Italic" = (true, true)
  ∧ tab_activity_symbol "none" = None ∧ tab_activity_symbol "" = None
  ∧ tab_activity_symbol "*" = Some "*"
  ∧ active_tab_title_template "'none'" = None
  ∧ active_tab_title_template "{title}" = Some "{title}".
Proof. repeat split; reflexivity. Qed.

Example clipboard_control_example :
  clipboard_control "Write-Clipboard  read-primary write-clipboard"
  = list_to_set ["write-clipboard"; "read-primary"; "write-clipboard"].
Proof.
  unfold clipboard_control.
  compute_term (Py.split_all (Py.lower "Write-Clipboard  read-primary write-clipboard")).
  reflexivity.
Qed.

Example url_prefixes_example : url_prefixes "HTTP, https,file  " = ["http"; "https"; "file"].
Proof. reflexivity. Qed.
